(** * Task-manager dashboard: the view-model pipeline

    A shallow embedding of the client-side pipeline of the task-manager UI
    (topic tree, grouping, sorting, assignee rollups, dashboard statistics,
    URL mirroring of the filter state), followed by the proofs of its
    properties.  Part I holds the definitions, module by module after the
    source files; Part II holds the lemmas and theorems. *)

From stdpp Require Import gmap strings list fin_maps sorting pretty.
From Stdlib Require Import ZArith Ascii SpecFloat.

Open Scope string_scope.
Open Scope nat_scope.
Open Scope list_scope.

(** * Part I: definitions *)

(** ** JavaScript values and built-ins used by the pipeline *)

(** Truthiness of a [string | null] value: [null] and [''] are falsy. *)
Definition truthy (o : option string) : bool :=
  match o with
  | Some s => negb (String.eqb s "")
  | None => false
  end.

(** [o || d] for [o : string | null] and a string [d]. *)
Definition or_else (o : option string) (d : string) : string :=
  match o with
  | Some s => if String.eqb s "" then d else s
  | None => d
  end.

(** [a || b] for two [string | null] values. *)
Definition or_opt (a b : option string) : option string :=
  if truthy a then a else b.

(** [s.split(sep)] for a one-character separator: it cuts [s] at every
    separator, keeps empty segments and always returns at least one
    segment. *)
Fixpoint split (sep : ascii) (s : string) : list string :=
  match s with
  | EmptyString => [EmptyString]
  | String c r =>
      if Ascii.eqb c sep then EmptyString :: split sep r
      else match split sep r with
           | [] => [String c EmptyString]
           | seg :: segs => String c seg :: segs
           end
  end.

(** [parts.join(sep)]. *)
Definition join (sep : string) (parts : list string) : string :=
  String.concat sep parts.

(** [c.toUpperCase()] on the ASCII letters. *)
Definition toUpperCase (c : ascii) : ascii :=
  let n := nat_of_ascii c in
  if (97 <=? n)%nat && (n <=? 122)%nat then ascii_of_nat (n - 32) else c.

(** [s.charAt(0).toUpperCase() + s.slice(1)]. *)
Definition capitalize (s : string) : string :=
  match s with
  | EmptyString => EmptyString
  | String c r => String (toUpperCase c) r
  end.

(** [Array.prototype.sort(compareFn)].  The language requires the sort to be
    stable, and for a comparator that orders the elements consistently the
    result is the one stable arrangement in ascending order; it is computed
    here by insertion from the right.  The comparator is only ever called as
    [compareFn x y] with [x] before [y] in the input. *)
Section Array_sort.
Context {A : Type} (compareFn : A → A → Z).

Fixpoint sort_insert (x : A) (l : list A) : list A :=
  match l with
  | [] => [x]
  | y :: l' =>
      if (compareFn x y <=? 0)%Z then x :: y :: l'
      else y :: sort_insert x l'
  end.

Definition Array_sort (l : list A) : list A := foldr sort_insert [] l.

(** The comparator decides the order [R] between [x] and [y]: a result that
    is not positive puts [x] first and means [R x y], a positive one puts
    [y] first and means [R y x]. *)
Definition decides (R : A → A → Prop) (x y : A) : Prop :=
  ((compareFn x y ≤ 0)%Z → R x y) ∧ ((0 < compareFn x y)%Z → R y x).
End Array_sort.

(** [Map<string, V>]: a map that iterates in insertion order, kept as the
    list of its entries. *)
Section Map.
Context {V : Type}.

Fixpoint Map_get (key : string) (m : list (string * V)) : option V :=
  match m with
  | [] => None
  | (k, v) :: m' => if decide (k = key) then Some v else Map_get key m'
  end.

Definition Map_has (key : string) (m : list (string * V)) : bool :=
  bool_decide (is_Some (Map_get key m)).

(** [m.set(key, v)]: an existing entry keeps its place, a new one goes
    last. *)
Fixpoint Map_set (key : string) (v : V) (m : list (string * V))
    : list (string * V) :=
  match m with
  | [] => [(key, v)]
  | (k, x) :: m' =>
      if decide (k = key) then (k, v) :: m' else (k, x) :: Map_set key v m'
  end.

Definition Map_values (m : list (string * V)) : list V := m.*2.
End Map.

(** ** [types/index.ts] *)

Module Types.

Inductive Priority := high | medium | low.
Inductive Status := pending | in_progress | completed.

Global Instance Priority_eq_dec : EqDecision Priority.
Proof. solve_decision. Defined.
Global Instance Status_eq_dec : EqDecision Status.
Proof. solve_decision. Defined.

(** The string behind each enumeration value. *)
Definition Priority_string (p : Priority) : string :=
  match p with high => "high" | medium => "medium" | low => "low" end.

Definition Status_string (s : Status) : string :=
  match s with
  | pending => "pending"
  | in_progress => "in_progress"
  | completed => "completed"
  end.

Record TaskNote := mkTaskNote {
  text : string;
  note_created_at : Z;
}.

(** A task.  A deadline is an ISO calendar date (['2024-12-15']); the
    record keeps the day the string denotes, counted in days from the
    epoch, and [None] where the field is [null] (or empty, which the code
    treats alike).  The time stamps are kept as the instant in milliseconds
    that [new Date(..).getTime()] yields for them. *)
Record Task := mkTask {
  id : string;
  description : string;
  assignee : option string;
  deadline : option Z;
  priority : Priority;
  primary_topic : string;
  secondary_topics : list string;
  status : Status;
  context : option string;
  source_transcript_id : option string;
  source_transcript_title : option string;
  created_at : Z;
  updated_at : Z;
  completed_at : option Z;
  notes : list TaskNote;
}.

Inductive GroupBy :=
  GroupNone | GroupTopic | GroupAssignee | GroupPriority | GroupStatus.
Inductive SortBy :=
  SortDeadline | SortPriority | SortCreated | SortUpdated | SortTopic.

(** [children] is the object used as a map from segment name to child
    node: the finite map of its own properties. *)
#[warnings="-register-all"] Inductive TopicNode := mkTopicNode {
  name : string;
  fullPath : string;
  tasks : list Task;
  children : gmap string TopicNode;
  taskCount : nat;
}.

(** [{ ...t, deadline: d }] *)
Definition with_deadline (d : option Z) (t : Task) : Task :=
  mkTask (id t) (description t) (assignee t) d (priority t)
         (primary_topic t) (secondary_topics t) (status t) (context t)
         (source_transcript_id t) (source_transcript_title t)
         (created_at t) (updated_at t) (completed_at t) (notes t).

(** A task with the given fields and nothing else of note, for examples. *)
Definition sample_task (id : string) (assignee : option string)
    (deadline : option Z) (priority : Priority) (primary_topic : string)
    (status : Status) : Task :=
  mkTask id "Review the budget" assignee deadline priority primary_topic []
         status None None None 0 0 None [].

End Types.

(** ** [components/TopicTree.tsx]: [buildTopicTree] *)

Module TopicTree.
Import Types.

Definition new_node (part fullPath : string) : TopicNode :=
  mkTopicNode part fullPath [] ∅ 0.

(** [current.taskCount++] *)
Definition incr_taskCount (n : TopicNode) : TopicNode :=
  mkTopicNode (name n) (fullPath n) (tasks n) (children n) (S (taskCount n)).

(** [current.tasks.push(task)] *)
Definition push_task (t : Task) (n : TopicNode) : TopicNode :=
  mkTopicNode (name n) (fullPath n) (tasks n ++ [t]) (children n) (taskCount n).

Definition set_child (part : string) (c : TopicNode) (n : TopicNode)
    : TopicNode :=
  mkTopicNode (name n) (fullPath n) (tasks n) (<[part := c]> (children n))
              (taskCount n).

(** The names that every plain object inherits from [Object.prototype].
    Each of them holds a function, and [__proto__] the prototype object
    itself, so that [children[part]] is truthy for these names although
    [children] has no such property of its own. *)
Definition Object_prototype : list string :=
  ["constructor"; "hasOwnProperty"; "isPrototypeOf"; "propertyIsEnumerable";
   "toLocaleString"; "toString"; "valueOf"; "__proto__";
   "__defineGetter__"; "__defineSetter__"; "__lookupGetter__";
   "__lookupSetter__"].

Definition inherited (part : string) : bool :=
  bool_decide (part ∈ Object_prototype).

(** The inner loop [for (let i = 0; i < parts.length; i++)].  [rest] is
    [parts] from index [i] on and [current] the node the loop has reached.
    The loop updates the nodes in place through [current]; here the
    updated child is put back under its segment name in the parent.

    [current.children[part]] finds the own property of that name, or else
    the inherited member.  In the second case no child is created and
    [current] becomes the member, which is not a node: it has neither
    [tasks] nor [children], so that [current.tasks.push] on the last
    segment, or [current.children[part]] on the next one, throws a
    TypeError.  The result [None] stands for that exception. *)
Fixpoint walk (task : Task) (parts : list string) (i : nat)
    (rest : list string) (current : TopicNode) : option TopicNode :=
  match rest with
  | [] => Some current
  | part :: rest' =>
      let fullPath := join "/" (take (i + 1) parts) in
      match children current !! part, inherited part with
      | None, true => None
      | found, _ =>
          let child := default (new_node part fullPath) found in
          let child := incr_taskCount child in
          let child :=
            if decide (i = length parts - 1) then push_task task child
            else child in
          child ← walk task parts (S i) rest' child;
          Some (set_child part child current)
      end
  end.

(** The body of the outer loop [for (const task of tasks)]. *)
Definition add_task (root : TopicNode) (task : Task) : option TopicNode :=
  let parts := split "/" (primary_topic task) in
  walk task parts 0 parts root.

(** [buildTopicTree(tasks)]: the root, or [None] when a TypeError ends the
    loop. *)
Definition buildTopicTree (tasks : list Task) : option TopicNode :=
  fold_left (λ root task, root ≫= λ root, add_task root task) tasks
    (Some (mkTopicNode "All Topics" "" [] ∅ (length tasks))).

(** The same loops on own properties alone.  They describe the tree that
    [walk] has built when it comes to its end without an exception
    (lemma [walk_Some] of Part II), and are used in the proofs only. *)
Fixpoint walk_own (task : Task) (parts : list string) (i : nat)
    (rest : list string) (current : TopicNode) : TopicNode :=
  match rest with
  | [] => current
  | part :: rest' =>
      let fullPath := join "/" (take (i + 1) parts) in
      let child :=
        match children current !! part with
        | Some c => c
        | None => new_node part fullPath
        end in
      let child := incr_taskCount child in
      let child :=
        if decide (i = length parts - 1) then push_task task child
        else child in
      set_child part (walk_own task parts (S i) rest' child) current
  end.

Definition add_task_own (root : TopicNode) (task : Task) : TopicNode :=
  let parts := split "/" (primary_topic task) in
  walk_own task parts 0 parts root.

Definition buildTopicTree_own (tasks : list Task) : TopicNode :=
  fold_left add_task_own tasks
    (mkTopicNode "All Topics" "" [] ∅ (length tasks)).

(** Sum of [taskCount] over the immediate children of a node. *)
Definition children_taskCount (n : TopicNode) : nat :=
  sum_list_with (λ kv, taskCount kv.2) (map_to_list (children n)).

(** The node reached from [n] along a path of segment names. *)
Fixpoint node_at (path : list string) (n : TopicNode) : option TopicNode :=
  match path with
  | [] => Some n
  | part :: path' =>
      match children n !! part with
      | Some c => node_at path' c
      | None => None
      end
  end.

(** Task [t] is attached to the node at [path] below [n]. *)
Definition attached_at (path : list string) (t : Task) (n : TopicNode) : Prop :=
  ∃ m, node_at path n = Some m ∧ t ∈ tasks m.

(** The path of segment names of a task's topic: [primary_topic.split('/')]. *)
Definition topic_path (t : Task) : list string := split "/" (primary_topic t).

(** The topic of [t] passes through, or ends at, the node at [path]. *)
Definition passes_through (path : list string) (t : Task) : bool :=
  bool_decide (path `prefix_of` topic_path t).

(** The topic of [t] ends exactly at the node at [path]. *)
Definition ends_at (path : list string) (t : Task) : bool :=
  bool_decide (topic_path t = path).

(** What the node at [path] holds once the tasks [seen] have been added. *)
Definition node_ok (path : list string) (seen : list Task) (n : TopicNode)
    : Prop :=
  taskCount n = length (List.filter (passes_through path) seen)
  ∧ 0 < taskCount n
  ∧ tasks n = List.filter (ends_at path) seen
  ∧ fullPath n = join "/" path
  ∧ Some (name n) = last path.

(** The state of the subtree below [current], the node at the path [pre],
    once the tasks [seen] have been added: every node is as [node_ok] says,
    and where there is no node no task passes. *)
Definition subtree_ok (pre : list string) (seen : list Task)
    (current : TopicNode) : Prop :=
  ∀ path, path ≠ [] →
    match node_at path current with
    | Some n => node_ok (pre ++ path) seen n
    | None => List.filter (passes_through (pre ++ path)) seen = []
    end.

(** The count of a node is that of its own tasks plus those of its
    children. *)
Definition balanced (n : TopicNode) : Prop :=
  taskCount n = length (tasks n) + children_taskCount n.

(** Every node below [current] is balanced. *)
Definition subtree_balanced (current : TopicNode) : Prop :=
  ∀ path n, path ≠ [] → node_at path current = Some n → balanced n.

(** No node below [n] sits under an inherited name. *)
Definition plain_paths (n : TopicNode) : Prop :=
  ∀ path m, node_at path n = Some m →
    Forall (λ part, inherited part = false) path.

(** No segment of the topic of [t] is an inherited name. *)
Definition plain_topic (t : Task) : Prop :=
  Forall (λ part, inherited part = false) (topic_path t).

End TopicTree.

(** ** [components/TaskList.tsx]: [groupTasks] and [sortTasks] *)

Module TaskList.
Import Types.

(** The bucket label of a task under a grouping key ([switch (groupBy)]). *)
Definition group_key (groupBy : GroupBy) (task : Task) : string :=
  match groupBy with
  | GroupTopic => primary_topic task
  | GroupAssignee => or_else (assignee task) "Unassigned"
  | GroupPriority => capitalize (Priority_string (priority task))
  | GroupStatus =>
      if decide (status task = in_progress) then "In Progress"
      else capitalize (Status_string (status task))
  | GroupNone => "Other"
  end.

(** The body of the loop [for (const task of tasks)]: create the bucket on
    first encounter, then push the task onto it. *)
Definition group_step (groupBy : GroupBy) (groups : list (string * list Task))
    (task : Task) : list (string * list Task) :=
  let key := group_key groupBy task in
  let groups := if Map_has key groups then groups else Map_set key [] groups in
  match Map_get key groups with
  | Some bucket => Map_set key (bucket ++ [task]) groups
  | None => groups
  end.

Definition groupTasks (tasks : list Task) (groupBy : GroupBy)
    : list (string * list Task) :=
  match groupBy with
  | GroupNone => Map_set "All Tasks" tasks []
  | _ => fold_left (group_step groupBy) tasks []
  end.

(** [priorityOrder = { high: 0, medium: 1, low: 2 }] *)
Definition priorityOrder (p : Priority) : Z :=
  match p with high => 0 | medium => 1 | low => 2 end.

(** [new Date(deadline).getTime()] for a calendar date: midnight (UTC) of
    that day, in milliseconds. *)
Definition Date_getTime (day : Z) : Z := day * 86400000.

Section sortTasks.
(** [a.localeCompare(b)], the collation of the host. *)
Variable localeCompare : string → string → Z.

(** The comparator passed to [sort]. *)
Definition compareTasks (sortBy : SortBy) (a b : Task) : Z :=
  match sortBy with
  | SortDeadline =>
      match deadline a, deadline b with
      | None, None => 0
      | None, Some _ => 1
      | Some _, None => -1
      | Some da, Some db => Date_getTime da - Date_getTime db
      end
  | SortPriority => priorityOrder (priority a) - priorityOrder (priority b)
  | SortCreated => created_at b - created_at a
  | SortUpdated => updated_at b - updated_at a
  | SortTopic => localeCompare (primary_topic a) (primary_topic b)
  end.

Definition sortTasks (tasks : list Task) (sortBy : SortBy) : list Task :=
  Array_sort (compareTasks sortBy) tasks.
End sortTasks.

(** The tasks of all buckets together. *)
Definition bucket_union (groups : list (string * list Task)) : list Task :=
  concat (Map_values groups).

(** [a] may stand before [b] in deadline order: dates ascending, tasks with
    no deadline after all dated ones. *)
Definition deadline_le (a b : Task) : Prop :=
  match deadline a, deadline b with
  | Some da, Some db => (da ≤ db)%Z
  | Some _, None => True
  | None, None => True
  | None, Some _ => False
  end.

(** [a] may stand before [b] in priority order (high first). *)
Definition priority_le (a b : Task) : Prop :=
  (priorityOrder (priority a) ≤ priorityOrder (priority b))%Z.

(** The keys of a list in the order in which they are first met. *)
Definition first_seen (keys : list string) : list string :=
  fold_left (λ acc k, if decide (k ∈ acc) then acc else acc ++ [k]) keys [].

(** What the grouping loop maintains once the tasks [seen] have been
    processed: bucket labels are distinct, each bucket holds the tasks of
    its label in input order, and the labels come in first-encounter
    order. *)
Definition groups_inv (groupBy : GroupBy) (seen : list Task)
    (groups : list (string * list Task)) : Prop :=
  NoDup groups.*1
  ∧ Forall (λ kv, kv.2 = List.filter
                           (λ t, bool_decide (group_key groupBy t = kv.1)) seen)
      groups
  ∧ groups.*1 = first_seen (group_key groupBy <$> seen).

(** [TaskList]: the tasks are sorted first and grouped afterwards. *)
Definition TaskList_groups (localeCompare : string → string → Z)
    (tasks : list Task) (groupBy : GroupBy) (sortBy : SortBy)
    : list (string * list Task) :=
  let sortedTasks := sortTasks localeCompare tasks sortBy in
  groupTasks sortedTasks groupBy.

(** [a] may stand before [b] when sorting by creation, newest first. *)
Definition created_ge (a b : Task) : Prop := (created_at b ≤ created_at a)%Z.

(** [a] may stand before [b] when sorting by update, newest first. *)
Definition updated_ge (a b : Task) : Prop := (updated_at b ≤ updated_at a)%Z.

(** The order that each sort key asks for; for the topic key it is the
    order of the collation. *)
Definition sort_le (localeCompare : string → string → Z) (sortBy : SortBy)
    (a b : Task) : Prop :=
  match sortBy with
  | SortDeadline => deadline_le a b
  | SortPriority => priority_le a b
  | SortCreated => created_ge a b
  | SortUpdated => updated_ge a b
  | SortTopic => (localeCompare (primary_topic a) (primary_topic b) ≤ 0)%Z
  end.

(** The comparator of the sort key finds [b] equal to [a]. *)
Definition sort_tie (localeCompare : string → string → Z) (sortBy : SortBy)
    (a b : Task) : bool :=
  bool_decide (compareTasks localeCompare sortBy a b = 0%Z).

(** The labels that [groupTasks] can give under the priority and the status
    key. *)
Definition priority_labels : list string := ["High"; "Medium"; "Low"].

Definition status_labels : list string :=
  ["Pending"; "In Progress"; "Completed"].

End TaskList.

(** ** [pages/Assignees.tsx]: [assigneeStats] *)

Module Assignees.

Record AssigneeStats := mkAssigneeStats {
  name : string;
  tasks : list Types.Task;
  high : nat;
  medium : nat;
  low : nat;
  pending : nat;
  completed : nat;
}.

(** [stat[task.priority]++] *)
Definition incr_priority (p : Types.Priority) (s : AssigneeStats)
    : AssigneeStats :=
  match p with
  | Types.high =>
      mkAssigneeStats (name s) (tasks s) (S (high s)) (medium s) (low s)
                      (pending s) (completed s)
  | Types.medium =>
      mkAssigneeStats (name s) (tasks s) (high s) (S (medium s)) (low s)
                      (pending s) (completed s)
  | Types.low =>
      mkAssigneeStats (name s) (tasks s) (high s) (medium s) (S (low s))
                      (pending s) (completed s)
  end.

(** [if (task.status === 'completed') stat.completed++; else stat.pending++] *)
Definition incr_status (st : Types.Status) (s : AssigneeStats)
    : AssigneeStats :=
  if decide (st = Types.completed) then
    mkAssigneeStats (name s) (tasks s) (high s) (medium s) (low s)
                    (pending s) (S (completed s))
  else
    mkAssigneeStats (name s) (tasks s) (high s) (medium s) (low s)
                    (S (pending s)) (completed s).

(** [stat.tasks.push(task)] *)
Definition push_task (t : Types.Task) (s : AssigneeStats) : AssigneeStats :=
  mkAssigneeStats (name s) (tasks s ++ [t]) (high s) (medium s) (low s)
                  (pending s) (completed s).

(** [task.assignee || 'Unassigned'] *)
Definition assignee_name (task : Types.Task) : string :=
  or_else (Types.assignee task) "Unassigned".

(** The body of the loop over [allTasksData.tasks]. *)
Definition stats_step (stats : list (string * AssigneeStats))
    (task : Types.Task) : list (string * AssigneeStats) :=
  let name := assignee_name task in
  let stats :=
    if Map_has name stats then stats
    else Map_set name (mkAssigneeStats name [] 0 0 0 0 0) stats in
  match Map_get name stats with
  | Some stat =>
      Map_set name
        (incr_status (Types.status task)
           (incr_priority (Types.priority task) (push_task task stat)))
        stats
  | None => stats
  end.

(** The comparator of the final [sort]. *)
Definition compareStats (a b : AssigneeStats) : Z :=
  if decide (name a = "Unassigned") then 1
  else if decide (name b = "Unassigned") then -1
  else Z.of_nat (length (tasks b)) - Z.of_nat (length (tasks a)).

(** [allTasksData] is [undefined] until the tasks are loaded. *)
Definition assigneeStats (allTasksData : option (list Types.Task))
    : list AssigneeStats :=
  match allTasksData with
  | None => []
  | Some tasks =>
      Array_sort compareStats (Map_values (fold_left stats_step tasks []))
  end.

(** The order of the rollup list: [a] may stand before [b] when [a] is not
    the Unassigned entry and [b] is that entry or has no more tasks than
    [a]. *)
Definition rollup_le (a b : AssigneeStats) : Prop :=
  name a ≠ "Unassigned"
  ∧ (name b = "Unassigned" ∨ (length (tasks b) ≤ length (tasks a))%nat).

Definition is_completed (t : Types.Task) : bool :=
  bool_decide (Types.status t = Types.completed).

(** The two status counters of an entry agree with its task list. *)
Definition counters_ok (s : AssigneeStats) : Prop :=
  pending s = length (List.filter (λ t, negb (is_completed t)) (tasks s))
  ∧ completed s = length (List.filter is_completed (tasks s))
  ∧ pending s + completed s = length (tasks s).

(** The tasks of [seen] that fall to the assignee [k], in order. *)
Definition tasks_of (k : string) (seen : list Types.Task) : list Types.Task :=
  List.filter (λ t, bool_decide (assignee_name t = k)) seen.

(** What the loop maintains for the entry under key [kv.1] once the tasks
    [seen] have been processed. *)
Definition entry_ok (seen : list Types.Task) (kv : string * AssigneeStats)
    : Prop :=
  name kv.2 = kv.1 ∧ tasks kv.2 = tasks_of kv.1 seen ∧ counters_ok kv.2.

Definition stats_inv (seen : list Types.Task)
    (stats : list (string * AssigneeStats)) : Prop :=
  NoDup stats.*1
  ∧ Forall (entry_ok seen) stats
  ∧ ∀ t, t ∈ seen → assignee_name t ∈ stats.*1.

(** The three priority counters of an entry agree with its task list. *)
Definition priorities_ok (s : AssigneeStats) : Prop :=
  high s = length (List.filter (λ t, bool_decide (Types.priority t = Types.high))
                     (tasks s))
  ∧ medium s
    = length (List.filter (λ t, bool_decide (Types.priority t = Types.medium))
                (tasks s))
  ∧ low s = length (List.filter (λ t, bool_decide (Types.priority t = Types.low))
                      (tasks s)).

End Assignees.

(** ** [pages/Dashboard.tsx]: [dashboardStats] and the stats cards *)

Module Dashboard.
Import Types.
Local Open Scope Z_scope.

(** Instants are milliseconds on the local time line, on which every
    calendar day has [MS_PER_DAY] milliseconds. *)
Definition MS_PER_DAY : Z := 86400000.

(** [parseISO(deadline)] for a calendar date: local midnight of that day. *)
Definition parseISO (day : Z) : Z := day * MS_PER_DAY.

Definition startOfDay (date : Z) : Z := (date `div` MS_PER_DAY) * MS_PER_DAY.

(** [isPast(date)]: strictly before the current instant. *)
Definition isPast (now date : Z) : bool := bool_decide (date < now)%Z.

(** [isToday(date)]: on the same calendar day as the current instant. *)
Definition isToday (now date : Z) : bool :=
  bool_decide (startOfDay date = startOfDay now).

Definition addDays (date amount : Z) : Z := date + amount * MS_PER_DAY.

(** [isWithinInterval(date, { start, end })], both ends included. *)
Definition isWithinInterval (date start end_ : Z) : bool :=
  bool_decide (start ≤ date ∧ date ≤ end_)%Z.

(** [tasks.filter(t => t.status !== 'completed')] *)
Definition activeTasks (tasks : list Task) : list Task :=
  List.filter (λ t, negb (bool_decide (status t = completed))) tasks.

Definition is_overdue (now : Z) (t : Task) : bool :=
  match deadline t with
  | Some d => isPast now (parseISO d) && negb (isToday now (parseISO d))
  | None => false
  end.

Definition is_dueSoon (now : Z) (t : Task) : bool :=
  let weekFromNow := addDays now 7 in
  match deadline t with
  | None => false
  | Some d => isWithinInterval (parseISO d) now weekFromNow
  end.

Definition overdueTasks (now : Z) (tasks : list Task) : list Task :=
  List.filter (is_overdue now) (activeTasks tasks).

Definition dueSoonTasks (now : Z) (tasks : list Task) : list Task :=
  List.filter (is_dueSoon now) (activeTasks tasks).

(** High priority, or among the due-soon tasks, or among the overdue ones;
    the first five. *)
Definition urgentTasks (now : Z) (tasks : list Task) : list Task :=
  take 5%nat
    (List.filter
       (λ t, bool_decide (priority t = high) || is_dueSoon now t
             || is_overdue now t)
       (activeTasks tasks)).

Definition recentTasks (tasks : list Task) : list Task :=
  take 5%nat (Array_sort (λ a b, updated_at b - updated_at a)%Z tasks).

(** The fields of the stats response that the dashboard reads. *)
Record TaskStatsResponse := mkTaskStatsResponse {
  total_tasks : Z;
  by_status : gmap string Z;
  by_priority : gmap string Z;
}.

Record DashboardStats := mkDashboardStats {
  total : Z;
  byStatus : gmap string Z;
  byPriority : gmap string Z;
  overdue : nat;
  dueSoon : nat;
  urgent : list Task;
  recent : list Task;
}.

(** [now] is the reading of the clock, [new Date()], when the statistics
    are computed. *)
Definition dashboardStats (statsData : option TaskStatsResponse)
    (tasksData : option (list Task)) (now : Z) : option DashboardStats :=
  match statsData, tasksData with
  | Some statsData, Some tasks =>
      Some (mkDashboardStats (total_tasks statsData) (by_status statsData)
              (by_priority statsData)
              (length (overdueTasks now tasks))
              (length (dueSoonTasks now tasks))
              (urgentTasks now tasks) (recentTasks tasks))
  | _, _ => None
  end.

(** Numbers are IEEE 754 double-precision values: 53 bits of precision,
    infinities at exponent 1024.  The operations round to nearest, ties to
    even. *)
Definition Number_of_Z (n : Z) : spec_float := binary_normalize 53 1024 n 0 false.

(** [a / b] on two counts. *)
Definition Number_div (a b : Z) : spec_float :=
  SFdiv 53 1024 (Number_of_Z a) (Number_of_Z b).

(** [x * 100] *)
Definition Number_times100 (x : spec_float) : spec_float :=
  SFmul 53 1024 x (Number_of_Z 100).

(** [x || 0]: the two zeros and [NaN] are falsy. *)
Definition Number_or0 (x : spec_float) : spec_float :=
  match x with
  | S754_zero _ | S754_nan => Number_of_Z 0
  | _ => x
  end.

(** [Math.round(x)]: the integer nearest to [x], the greater one of two
    that are equally near; a result of zero keeps the sign of [x]. *)
Definition Math_round (x : spec_float) : spec_float :=
  match x with
  | S754_finite s m e =>
      if (0 <=? e)%Z then x
      else
        let n := ((2 * (if s then Z.neg m else Z.pos m) + 2 ^ (- e))
                  `div` 2 ^ (- e + 1))%Z in
        if (n =? 0)%Z then S754_zero s else Number_of_Z n
  | _ => x
  end.

(** The value of a number that is an integer. *)
Definition integer_value (x : spec_float) : option Z :=
  match x with
  | S754_zero _ => Some 0%Z
  | S754_finite s m e =>
      let a := if s then Z.neg m else Z.pos m in
      if (0 <=? e)%Z then Some (a * 2 ^ e)%Z
      else if (a `mod` 2 ^ (- e) =? 0)%Z then Some (a `div` 2 ^ (- e))%Z
           else None
  | _ => None
  end.

(** [dashboardStats.byStatus.completed || 0] *)
Definition count_or0 (counts : gmap string Z) (key : string) : Z :=
  default 0 (counts !! key).

Section completionRate.
(** The digits that the engine prints for a finite number that is not an
    integer below [10^21] in magnitude. *)
Variable Number_digits : spec_float → string.

(** The text of a number inside a template literal. *)
Definition Number_toString (x : spec_float) : string :=
  match x with
  | S754_nan => "NaN"
  | S754_infinity false => "Infinity"
  | S754_infinity true => "-Infinity"
  | _ =>
      match integer_value x with
      | Some n => if (Z.abs n <? 10 ^ 21)%Z then pretty n else Number_digits x
      | None => Number_digits x
      end
  end.

(** The subtitle of the Completed card:
    [`${Math.round((completed / dashboardStats.total) * 100 || 0)}% completion rate`] *)
Definition completionRate (stats : DashboardStats) : string :=
  let completed := count_or0 (byStatus stats) "completed" in
  Number_toString
    (Math_round (Number_or0 (Number_times100 (Number_div completed (total stats)))))
  +:+ "% completion rate".
End completionRate.

End Dashboard.

(** ** [pages/Tasks.tsx]: the filter state and the URL query string *)

Module Tasks.

(** [FilterState] of [types/index.ts]. *)
Record FilterState := mkFilterState {
  status : option string;
  topic : option string;
  assignee : option string;
  priority : option string;
  search : string;
}.

(** [URLSearchParams]: the decoded name/value pairs of the query string, in
    order.  Writing the pairs into the URL and parsing the URL again gives
    back the same pairs. *)
Definition URLSearchParams_get (name : string) (params : list (string * string))
    : option string :=
  Map_get name params.

(** [params.set(name, value)]: the first pair of that name takes the value
    and the other pairs of that name go; without one the pair is appended. *)
Fixpoint URLSearchParams_set (name value : string)
    (params : list (string * string)) : list (string * string) :=
  match params with
  | [] => [(name, value)]
  | (k, v) :: rest =>
      if decide (k = name)
      then (k, value) :: List.filter (λ kv, negb (bool_decide (kv.1 = name))) rest
      else (k, v) :: URLSearchParams_set name value rest
  end.

(** [if (value) params.set(name, value)] *)
Definition set_if_truthy (name : string) (value : option string)
    (params : list (string * string)) : list (string * string) :=
  match value with
  | Some v => if truthy value then URLSearchParams_set name v params else params
  | None => params
  end.

(** The initial state of [filters], read from the query string on mount. *)
Definition readFilters (searchParams : list (string * string)) : FilterState :=
  mkFilterState
    (URLSearchParams_get "status" searchParams)
    (URLSearchParams_get "topic" searchParams)
    (URLSearchParams_get "assignee" searchParams)
    (URLSearchParams_get "priority" searchParams)
    (or_else (or_opt (URLSearchParams_get "search" searchParams)
                     (URLSearchParams_get "q" searchParams)) "").

(** The query string that [handleFilterChange] writes. *)
Definition handleFilterChange (newFilters : FilterState)
    : list (string * string) :=
  let params := [] in
  let params := set_if_truthy "status" (status newFilters) params in
  let params := set_if_truthy "topic" (topic newFilters) params in
  let params := set_if_truthy "assignee" (assignee newFilters) params in
  let params := set_if_truthy "priority" (priority newFilters) params in
  let params := set_if_truthy "q" (Some (search newFilters)) params in
  params.

(** A field as it comes back from the URL: an empty one is not written and
    reads back as [null]. *)
Definition absent_as_null (o : option string) : option string :=
  if truthy o then o else None.

(** No nullable field holds the empty string. *)
Definition no_empty_field (f : FilterState) : Prop :=
  status f ≠ Some "" ∧ topic f ≠ Some "" ∧ assignee f ≠ Some ""
  ∧ priority f ≠ Some "".

End Tasks.

(** ** [hooks/useTasks.ts]: the task query on mock data *)

Module useTasks.
Import Types.

(** [s.includes(search)] *)
Fixpoint includes (search s : string) : bool :=
  String.prefix search s
  || match s with
     | EmptyString => false
     | String _ r => includes search r
     end.

(** [if (value) { tasks = f(value, tasks) }] *)
Definition when_truthy (value : option string)
    (f : string → list Task → list Task) (tasks : list Task) : list Task :=
  match value with
  | Some v => if String.eqb v "" then tasks else f v tasks
  | None => tasks
  end.

(** [tasks.filter(t => t.status === filters.status)] *)
Definition filter_status (value : string) (tasks : list Task) : list Task :=
  List.filter (λ t, bool_decide (Status_string (status t) = value)) tasks.

(** [tasks.filter(t => t.primary_topic.startsWith(filters.topic))] *)
Definition filter_topic (value : string) (tasks : list Task) : list Task :=
  List.filter (λ t, String.prefix value (primary_topic t)) tasks.

(** The assignee filter, with ['Unassigned'] standing for no assignee. *)
Definition filter_assignee (value : string) (tasks : list Task) : list Task :=
  if decide (value = "Unassigned")
  then List.filter (λ t, negb (truthy (assignee t))) tasks
  else List.filter (λ t, bool_decide (assignee t = Some value)) tasks.

(** [tasks.filter(t => t.priority === filters.priority)] *)
Definition filter_priority (value : string) (tasks : list Task) : list Task :=
  List.filter (λ t, bool_decide (Priority_string (priority t) = value)) tasks.

Record Pagination := mkPagination {
  page_limit : option Z;
  page_offset : option Z;
}.

Record TaskListResponse := mkTaskListResponse {
  total : nat;
  limit : Z;
  offset : Z;
  count : nat;
  tasks : list Task;
}.

(** [n || d] for an optional number: zero is falsy. *)
Definition number_or (n : option Z) (d : Z) : Z :=
  match n with
  | Some n => if (n =? 0)%Z then d else n
  | None => d
  end.

Section query.
(** [s.toLowerCase()], the case mapping of the host. *)
Variable toLowerCase : string → string.

(** The free-text filter: the lower-cased text is looked for in the
    description, the topic and, when there is one, the assignee. *)
Definition filter_search (value : string) (tasks : list Task) : list Task :=
  let search := toLowerCase value in
  List.filter
    (λ t, includes search (toLowerCase (description t))
          || includes search (toLowerCase (primary_topic t))
          || match assignee t with
             | Some a => includes search (toLowerCase a)
             | None => false
             end)
    tasks.

(** The filters of the query function, applied one after the other. *)
Definition applyFilters (tasks : list Task) (filters : Tasks.FilterState)
    : list Task :=
  let tasks := when_truthy (Tasks.status filters) filter_status tasks in
  let tasks := when_truthy (Tasks.topic filters) filter_topic tasks in
  let tasks := when_truthy (Tasks.assignee filters) filter_assignee tasks in
  let tasks := when_truthy (Tasks.priority filters) filter_priority tasks in
  let tasks := when_truthy (Some (Tasks.search filters)) filter_search tasks in
  tasks.

(** The query function of [useTasks] on mock data; [mockTasks] is the list
    that [getMockTasks()] returns. *)
Definition mockQuery (mockTasks : list Task) (filters : Tasks.FilterState)
    (pagination : option Pagination) : TaskListResponse :=
  let tasks := applyFilters mockTasks filters in
  mkTaskListResponse (length tasks)
    (number_or (pagination ≫= page_limit) 100)
    (number_or (pagination ≫= page_offset) 0)
    (length tasks) tasks.

(** The task lists of the Topics and Assignees pages: the query filtered by
    the selection when there is one, the unfiltered query otherwise. *)
Definition only_topic (topic : option string) : Tasks.FilterState :=
  Tasks.mkFilterState None topic None None "".

Definition only_assignee (assignee : option string) : Tasks.FilterState :=
  Tasks.mkFilterState None None assignee None "".

Definition Topics_tasks (mockTasks : list Task) (selectedTopic : option string)
    : list Task :=
  if truthy selectedTopic
  then tasks (mockQuery mockTasks (only_topic selectedTopic) None)
  else tasks (mockQuery mockTasks (only_topic None) None).

Definition Assignees_tasks (mockTasks : list Task)
    (selectedAssignee : option string) : list Task :=
  if truthy selectedAssignee
  then tasks (mockQuery mockTasks (only_assignee selectedAssignee) None)
  else tasks (mockQuery mockTasks (only_assignee None) None).
End query.

(** [onTopicSelect={(topic) => setSelectedTopic(topic || null)}] *)
Definition onTopicSelect (topic : string) : option string :=
  if String.eqb topic "" then None else Some topic.

(** The constraint that a field of the filter state puts on a task: none
    when the field is empty. *)
Definition constraint (value : option string) (p : string → Task → bool)
    (t : Task) : bool :=
  match value with
  | Some v => if String.eqb v "" then true else p v t
  | None => true
  end.

Definition matches_status (value : string) (t : Task) : bool :=
  bool_decide (Status_string (status t) = value).

Definition matches_topic (value : string) (t : Task) : bool :=
  String.prefix value (primary_topic t).

Definition matches_assignee (value : string) (t : Task) : bool :=
  if decide (value = "Unassigned") then negb (truthy (assignee t))
  else bool_decide (assignee t = Some value).

Definition matches_priority (value : string) (t : Task) : bool :=
  bool_decide (Priority_string (priority t) = value).

Definition matches_search (toLowerCase : string → string) (value : string)
    (t : Task) : bool :=
  let search := toLowerCase value in
  includes search (toLowerCase (description t))
  || includes search (toLowerCase (primary_topic t))
  || match assignee t with
     | Some a => includes search (toLowerCase a)
     | None => false
     end.

(** All constraints of a filter state at once. *)
Definition matches (toLowerCase : string → string) (filters : Tasks.FilterState)
    (t : Task) : bool :=
  constraint (Tasks.status filters) matches_status t
  && constraint (Tasks.topic filters) matches_topic t
  && constraint (Tasks.assignee filters) matches_assignee t
  && constraint (Tasks.priority filters) matches_priority t
  && constraint (Some (Tasks.search filters)) (matches_search toLowerCase) t.

End useTasks.

(** ** [api/tasks.ts]: the query of [listTasks] *)

Module Api.
Import Tasks.

Section listTasks.
(** [n.toString()] for a number. *)
Variable Number_toString : Z → string.

(** [if (n) params.set(name, n.toString())] for an optional number: zero is
    falsy. *)
Definition set_if_nonzero (name : string) (value : option Z)
    (params : list (string * string)) : list (string * string) :=
  match value with
  | Some n => if (n =? 0)%Z then params
              else URLSearchParams_set name (Number_toString n) params
  | None => params
  end.

(** The parameters that [listTasks] puts in the query of its request. *)
Definition listTasks_params (filters : FilterState)
    (pagination : option useTasks.Pagination) : list (string * string) :=
  let params := [] in
  let params := set_if_truthy "status" (status filters) params in
  let params := set_if_truthy "topic" (topic filters) params in
  let params := set_if_truthy "assignee" (assignee filters) params in
  let params := set_if_truthy "priority" (priority filters) params in
  let params := set_if_truthy "q" (Some (search filters)) params in
  let params :=
    set_if_nonzero "limit" (pagination ≫= useTasks.page_limit) params in
  let params :=
    set_if_nonzero "offset" (pagination ≫= useTasks.page_offset) params in
  params.
End listTasks.

End Api.

(** ** [components/FilterBar.tsx] *)

Module FilterBar.
Import Tasks.

Definition hasActiveFilters (filters : FilterState) : bool :=
  truthy (status filters) || truthy (topic filters)
  || truthy (assignee filters) || truthy (priority filters)
  || truthy (Some (search filters)).

Definition clearFilters : FilterState := mkFilterState None None None None "".

(** [e.target.value || null] *)
Definition value_or_null (value : string) : option string :=
  if String.eqb value "" then None else Some value.

(** What the user can do in the filter bar: choose an option of one of the
    four selects (the first option has the empty value), type in the search
    box, remove the tag of an active filter, clear all filters. *)
Inductive FilterEvent :=
  | SelectStatus (value : string)
  | SelectTopic (value : string)
  | SelectAssignee (value : string)
  | SelectPriority (value : string)
  | TypeSearch (value : string)
  | RemoveSearch
  | RemoveStatus
  | RemoveTopic
  | RemoveAssignee
  | RemovePriority
  | ClearFilters.

(** The state that the handler of the event passes to [onFilterChange]. *)
Definition onFilterEvent (filters : FilterState) (e : FilterEvent)
    : FilterState :=
  match e with
  | SelectStatus value =>
      mkFilterState (value_or_null value) (topic filters) (assignee filters)
                    (priority filters) (search filters)
  | SelectTopic value =>
      mkFilterState (status filters) (value_or_null value) (assignee filters)
                    (priority filters) (search filters)
  | SelectAssignee value =>
      mkFilterState (status filters) (topic filters) (value_or_null value)
                    (priority filters) (search filters)
  | SelectPriority value =>
      mkFilterState (status filters) (topic filters) (assignee filters)
                    (value_or_null value) (search filters)
  | TypeSearch value =>
      mkFilterState (status filters) (topic filters) (assignee filters)
                    (priority filters) value
  | RemoveSearch =>
      mkFilterState (status filters) (topic filters) (assignee filters)
                    (priority filters) ""
  | RemoveStatus =>
      mkFilterState None (topic filters) (assignee filters)
                    (priority filters) (search filters)
  | RemoveTopic =>
      mkFilterState (status filters) None (assignee filters)
                    (priority filters) (search filters)
  | RemoveAssignee =>
      mkFilterState (status filters) (topic filters) None
                    (priority filters) (search filters)
  | RemovePriority =>
      mkFilterState (status filters) (topic filters) (assignee filters)
                    None (search filters)
  | ClearFilters => clearFilters
  end.

End FilterBar.

(** ** [components/TaskCard.tsx]: [formatDeadline] *)

Module TaskCard.
Import Dashboard.
Local Open Scope Z_scope.

Record DeadlineInfo := mkDeadlineInfo {
  text : string;
  isOverdue : bool;
  isUrgent : bool;
}.

(** [isTomorrow(date)]: on the calendar day after that of the current
    instant. *)
Definition isTomorrow (now date : Z) : bool :=
  bool_decide (startOfDay date = startOfDay (addDays now 1)).

Section formatDeadline.
(** [format(date, pattern)] of date-fns. *)
Variable format : Z → string → string.

Definition formatDeadline (now : Z) (deadline : option Z) : DeadlineInfo :=
  match deadline with
  | None => mkDeadlineInfo "No deadline" false false
  | Some day =>
      let date := parseISO day in
      if isToday now date then mkDeadlineInfo "Today" false true
      else if isTomorrow now date then mkDeadlineInfo "Tomorrow" false true
      else if isPast now date
           then mkDeadlineInfo ("Overdue: " +:+ format date "MMM d") true false
           else mkDeadlineInfo (format date "MMM d, yyyy") false false
  end.
End formatDeadline.

End TaskCard.

(** * Part II: properties *)

(** ** Strings *)

Lemma split_nonempty sep s : split sep s ≠ [].
Proof.
  destruct s as [|c r]; simpl; [done|].
  destruct (Ascii.eqb c sep); [done|].
  by destruct (split sep r).
Qed.

Example split_path :
  split "/" "Work/Projects/Alpha" = ["Work"; "Projects"; "Alpha"].
Proof. reflexivity. Qed.

Example split_empty_topic : split "/" "" = [""].
Proof. reflexivity. Qed.

Example split_keeps_empty_segments : split "/" "/a//" = [""; "a"; ""; ""].
Proof. reflexivity. Qed.

Example capitalize_priority : capitalize "high" = "High".
Proof. reflexivity. Qed.

(** ** [Array.prototype.sort] *)

Section Array_sort_facts.
Context {A : Type} (compareFn : A → A → Z).

Lemma sort_insert_perm x l : sort_insert compareFn x l ≡ₚ x :: l.
Proof.
  induction l as [|y l IH]; simpl; [done|].
  destruct (compareFn x y <=? 0)%Z; [done|].
  rewrite IH. apply Permutation_swap.
Qed.

Lemma Array_sort_perm l : Array_sort compareFn l ≡ₚ l.
Proof.
  induction l as [|x l IH]; simpl; [done|].
  by rewrite sort_insert_perm, IH.
Qed.

Lemma Array_sort_length l : length (Array_sort compareFn l) = length l.
Proof. by rewrite Array_sort_perm. Qed.

(** A list that the comparator already finds in order is left as it is. *)
Lemma Array_sort_fixed l :
  Sorted (λ x y, compareFn x y ≤ 0)%Z l → Array_sort compareFn l = l.
Proof.
  induction 1 as [|x l Hs IH Hhd]; simpl; [done|].
  rewrite IH. destruct Hhd as [|y l Hxy]; simpl; [done|].
  by rewrite (proj2 (Z.leb_le _ _) Hxy).
Qed.

(** Sortedness of the result for an order [R] that the comparator decides on
    the pairs it is called with. *)
Section sorted.
Context (R : A → A → Prop) `{!Transitive R}.

Lemma sort_insert_sorted x l :
  Forall (decides compareFn R x) l → StronglySorted R l →
  StronglySorted R (sort_insert compareFn x l).
Proof.
  induction l as [|y l IH]; simpl; intros Hd Hs.
  - repeat constructor.
  - apply Forall_cons in Hd as [[Hle Hgt] Hd].
    apply StronglySorted_cons in Hs as [Hy Hs].
    destruct (Z.leb_spec (compareFn x y) 0) as [Hc|Hc].
    + apply StronglySorted_cons. split.
      * constructor; [by apply Hle|].
        eapply Forall_impl; [exact Hy|]. intros z Hz.
        by transitivity y; [apply Hle|].
      * by apply StronglySorted_cons.
    + apply StronglySorted_cons. split; [|by apply IH].
      rewrite sort_insert_perm. constructor; [by apply Hgt|done].
Qed.

Lemma Array_sort_sorted l :
  ForallOrdPairs (decides compareFn R) l →
  StronglySorted R (Array_sort compareFn l).
Proof.
  induction 1 as [|x l Hx Hl IH]; simpl; [constructor|].
  apply sort_insert_sorted; [|done].
  by rewrite Array_sort_perm.
Qed.
End sorted.

(** Elements that are skipped during insertion compare greater. *)
Lemma sort_insert_filter (P : A → bool) x l :
  (∀ y, (0 < compareFn x y)%Z → P x = true → P y = false) →
  List.filter P (sort_insert compareFn x l) = List.filter P (x :: l).
Proof.
  intros Hskip. induction l as [|y l IH]; simpl; [done|].
  destruct (Z.leb_spec (compareFn x y) 0) as [Hc|Hc]; simpl; [done|].
  rewrite IH. simpl. destruct (P x) eqn:Hx; [|done].
  by rewrite (Hskip y Hc eq_refl).
Qed.
End Array_sort_facts.

Lemma ForallOrdPairs_all {A} (P : A → A → Prop) (l : list A) :
  (∀ x y, P x y) → ForallOrdPairs P l.
Proof.
  intros HP. induction l; constructor; [|done].
  apply Forall_forall. auto.
Qed.

Lemma StronglySorted_lookup_lt {A} (R : A → A → Prop) (l : list A) i j a b :
  StronglySorted R l → (i < j)%nat →
  l !! i = Some a → l !! j = Some b → R a b.
Proof.
  intros Hs. revert i j. induction Hs as [|x l Hs IH Hx]; intros i j Hij Hi Hj.
  - done.
  - destruct j as [|j]; [lia|]. destruct i as [|i]; simpl in *.
    + injection Hi as <-. eapply Forall_forall in Hx; [done|].
      by eapply list_elem_of_lookup_2.
    + eapply IH; [|done..]. lia.
Qed.

Lemma filter_none {A} (f : A → bool) (l : list A) :
  (∀ x, x ∈ l → f x = false) → List.filter f l = [].
Proof.
  induction l as [|x l IH]; simpl; intros Hf; [done|].
  rewrite (Hf x) by apply list_elem_of_here.
  apply IH. intros y Hy. by apply Hf, list_elem_of_further.
Qed.

Lemma Sorted_weaken {A} (R1 R2 : A → A → Prop) (l : list A) :
  (∀ x y, R1 x y → R2 x y) → Sorted R1 l → Sorted R2 l.
Proof.
  intros HR. induction 1 as [|x l Hs IH Hhd]; constructor; [done|].
  destruct Hhd; constructor; auto.
Qed.

(** ** Insertion-ordered maps *)

Section Map_facts.
Context {V : Type}.
Implicit Types m : list (string * V).

Lemma Map_has_true key m : Map_has key m = true ↔ is_Some (Map_get key m).
Proof. unfold Map_has. by rewrite bool_decide_eq_true. Qed.

Lemma Map_has_false key m : Map_has key m = false ↔ Map_get key m = None.
Proof.
  unfold Map_has. by rewrite bool_decide_eq_false, eq_None_not_Some.
Qed.

Lemma Map_get_set_eq key v m : Map_get key (Map_set key v m) = Some v.
Proof.
  induction m as [|[k x] m IH]; simpl.
  - by rewrite decide_True.
  - destruct (decide (k = key)) as [->|Hne]; simpl.
    + by rewrite decide_True.
    + by rewrite decide_False.
Qed.

Lemma Map_set_absent key v m :
  Map_get key m = None → Map_set key v m = m ++ [(key, v)].
Proof.
  induction m as [|[k x] m IH]; simpl; [done|].
  destruct (decide (k = key)); [done|]. intros Hm. by rewrite IH.
Qed.

Lemma Map_get_None key m : Map_get key m = None ↔ key ∉ m.*1.
Proof.
  induction m as [|[k x] m IH]; simpl.
  - split; [intros _; apply not_elem_of_nil|done].
  - rewrite not_elem_of_cons. destruct (decide (k = key)) as [->|Hne].
    + split; [done|]. by intros [? _].
    + rewrite IH. split; [intros ?; split; [congruence|done]|by intros [_ ?]].
Qed.

Lemma Map_get_Some key v m : Map_get key m = Some v → (key, v) ∈ m.
Proof.
  induction m as [|[k x] m IH]; simpl; [done|].
  destruct (decide (k = key)) as [->|Hne].
  - intros [= ->]. apply list_elem_of_here.
  - intros Hm. apply list_elem_of_further. by apply IH.
Qed.

Lemma Map_set_keys_elem key v m x :
  x ∈ (Map_set key v m).*1 → x = key ∨ x ∈ m.*1.
Proof.
  induction m as [|[k y] m IH]; simpl.
  - rewrite list_elem_of_singleton. by left.
  - destruct (decide (k = key)) as [->|Hne]; simpl.
    + by right.
    + rewrite !elem_of_cons. intros [->|Hin]; [right; by left|].
      destruct (IH Hin) as [->|?]; [by left|right; by right].
Qed.

Lemma Map_set_keys_NoDup key v m : NoDup m.*1 → NoDup (Map_set key v m).*1.
Proof.
  induction m as [|[k y] m IH]; simpl.
  - intros _. apply NoDup_singleton.
  - rewrite NoDup_cons. intros [Hk Hm].
    destruct (decide (k = key)) as [->|Hne]; simpl.
    + by apply NoDup_cons.
    + apply NoDup_cons. split; [|by apply IH].
      intros [->|Hin]%Map_set_keys_elem; done.
Qed.

Lemma Map_set_keys_mono key v m x : x ∈ m.*1 → x ∈ (Map_set key v m).*1.
Proof.
  induction m as [|[k y] m IH]; simpl.
  - by intros ?%elem_of_nil.
  - destruct (decide (k = key)) as [->|Hne]; simpl; [done|].
    rewrite !elem_of_cons. intros [->|Hin]; [by left|right; by apply IH].
Qed.

Lemma Map_set_keys_key key v m : key ∈ (Map_set key v m).*1.
Proof.
  induction m as [|[k y] m IH]; simpl.
  - apply list_elem_of_here.
  - destruct (decide (k = key)) as [->|Hne]; simpl.
    + apply list_elem_of_here.
    + by apply list_elem_of_further.
Qed.

(** A property of the entries survives [set] when the new entry has it. *)
Lemma Forall_Map_set (P : string * V → Prop) key v m :
  Forall P m → P (key, v) → Forall P (Map_set key v m).
Proof.
  induction m as [|[k y] m IH]; simpl; intros Hm Hv.
  - by constructor.
  - apply Forall_cons in Hm as [Hk Hm].
    destruct (decide (k = key)) as [->|Hne]; constructor; auto.
Qed.

(** Updating the entry of [key] changes that entry only. *)
Lemma Forall_Map_set_update (P Q : string * V → Prop) key v m :
  Forall P m → Q (key, v) →
  (∀ k x, (k, x) ∈ m → k ≠ key → P (k, x) → Q (k, x)) →
  NoDup m.*1 →
  Forall Q (Map_set key v m).
Proof.
  induction m as [|[k y] m IH]; simpl; intros Hm Hv Hother Hnd.
  - by constructor.
  - apply Forall_cons in Hm as [Hk Hm].
    apply NoDup_cons in Hnd as [Hkm Hnd].
    destruct (decide (k = key)) as [->|Hne]; constructor; auto.
    + apply Forall_forall. intros [k x] Hin.
      apply Hother; [by apply list_elem_of_further| |].
      * intros ->. apply Hkm. apply list_elem_of_fmap. by exists (key, x).
      * by eapply Forall_forall in Hm.
    + apply Hother; [apply list_elem_of_here|done..].
    + apply IH; [done..| |done].
      intros k' x Hin. apply Hother. by apply list_elem_of_further.
Qed.
End Map_facts.

(** ** The topic tree builder *)

Module TopicTree_facts.
Import Types TopicTree.

Lemma walk_taskCount task parts rest i current :
  taskCount (walk_own task parts i rest current) = taskCount current.
Proof. by destruct rest. Qed.

Lemma walk_tasks task parts rest i current :
  tasks (walk_own task parts i rest current) = tasks current.
Proof. by destruct rest. Qed.

Lemma walk_name task parts rest i current :
  name (walk_own task parts i rest current) = name current
  ∧ fullPath (walk_own task parts i rest current) = fullPath current.
Proof. by destruct rest. Qed.

(** Putting a child under [part] changes the sum over the children by the
    difference between its count and the count of the child it replaces. *)
Lemma children_taskCount_set_child part c n :
  children_taskCount (set_child part c n)
    + from_option taskCount 0 (children n !! part)
  = taskCount c + children_taskCount n.
Proof.
  unfold children_taskCount, set_child; simpl.
  destruct (children n !! part) as [c0|] eqn:Hl; simpl.
  - rewrite <-(insert_delete_eq (children n)).
    rewrite map_to_list_insert by apply lookup_delete_eq.
    rewrite <-(map_to_list_delete (children n) part c0) by done.
    simpl. lia.
  - rewrite map_to_list_insert by done. simpl. lia.
Qed.

(** One walk along a non-empty path adds one to the sum over the children
    of the node it starts from. *)
Lemma walk_children_taskCount task parts rest i current :
  rest ≠ [] →
  children_taskCount (walk_own task parts i rest current)
  = S (children_taskCount current).
Proof.
  destruct rest as [|part rest']; [done|intros _]. simpl.
  set (child := match children current !! part with
                | Some c => c
                | None => new_node part (join "/" (take (i + 1) parts))
                end).
  set (child' := if decide (i = length parts - 1)
                 then push_task task (incr_taskCount child)
                 else incr_taskCount child).
  pose proof (children_taskCount_set_child part
    (walk_own task parts (S i) rest' child') current) as Hset.
  rewrite walk_taskCount in Hset.
  assert (taskCount child' = S (taskCount child)) as Hc
    by (unfold child'; by case_decide).
  assert (from_option taskCount 0 (children current !! part) = taskCount child)
    as Hold by (unfold child; by destruct (children current !! part)).
  lia.
Qed.

Lemma add_task_taskCount root task :
  taskCount (add_task_own root task) = taskCount root.
Proof. apply walk_taskCount. Qed.

Lemma add_task_tasks root task : tasks (add_task_own root task) = tasks root.
Proof. apply walk_tasks. Qed.

Lemma add_task_children_taskCount root task :
  children_taskCount (add_task_own root task) = S (children_taskCount root).
Proof. apply walk_children_taskCount, split_nonempty. Qed.

Lemma fold_add_task_taskCount ts root :
  taskCount (fold_left add_task_own ts root) = taskCount root.
Proof.
  revert root. induction ts as [|t ts IH]; intros root; simpl; [done|].
  by rewrite IH, add_task_taskCount.
Qed.

Lemma fold_add_task_tasks ts root :
  tasks (fold_left add_task_own ts root) = tasks root.
Proof.
  revert root. induction ts as [|t ts IH]; intros root; simpl; [done|].
  by rewrite IH, add_task_tasks.
Qed.

Lemma fold_add_task_children_taskCount ts root :
  children_taskCount (fold_left add_task_own ts root)
  = children_taskCount root + length ts.
Proof.
  revert root. induction ts as [|t ts IH]; intros root; simpl; [lia|].
  rewrite IH, add_task_children_taskCount. lia.
Qed.

(** *** The exception *)

Lemma plain_paths_children a b :
  children a = children b → plain_paths a → plain_paths b.
Proof.
  intros Hc Ha [|p path] m Hm; [constructor|].
  apply (Ha (p :: path) m). simpl in *. by rewrite Hc.
Qed.

Lemma plain_paths_child part c n :
  children n !! part = Some c → plain_paths n →
  inherited part = false ∧ plain_paths c.
Proof.
  intros Hc Hn. split.
  - assert (Forall (λ p, inherited p = false) [part]) as Hp.
    { apply (Hn [part] c). simpl. by rewrite Hc. }
    by apply Forall_cons in Hp as [? _].
  - intros path m Hm.
    assert (Forall (λ p, inherited p = false) (part :: path)) as Hp.
    { apply (Hn (part :: path) m). simpl. by rewrite Hc. }
    by apply Forall_cons in Hp as [_ ?].
Qed.

Lemma plain_paths_new part fullPath : plain_paths (new_node part fullPath).
Proof.
  intros [|p path] m Hm; [constructor|]. simpl in Hm.
  by rewrite lookup_empty in Hm.
Qed.

Lemma plain_paths_set_child part c n :
  inherited part = false → plain_paths c → plain_paths n →
  plain_paths (set_child part c n).
Proof.
  intros Hpart Hc Hn [|p path] m Hm; [constructor|]. simpl in Hm.
  destruct (decide (part = p)) as [<-|Hne].
  - rewrite lookup_insert_eq in Hm. constructor; [done|]. by apply (Hc path m).
  - rewrite lookup_insert_ne in Hm by done. by apply (Hn (p :: path) m).
Qed.

(** On segments that are not inherited names the walk comes to its end. *)
Lemma walk_plain task parts rest : ∀ i current,
  Forall (λ part, inherited part = false) rest →
  walk task parts i rest current = Some (walk_own task parts i rest current).
Proof.
  induction rest as [|part rest' IH]; intros i current Hrest; [done|].
  apply Forall_cons in Hrest as [Hpart Hrest]. simpl. rewrite Hpart.
  destruct (children current !! part) as [c|]; simpl; by rewrite IH.
Qed.

(** A walk that comes to its end has met no inherited name, and has built
    what the walk on own properties builds. *)
Lemma walk_Some task parts rest : ∀ i current result,
  plain_paths current →
  walk task parts i rest current = Some result →
  Forall (λ part, inherited part = false) rest
  ∧ result = walk_own task parts i rest current
  ∧ plain_paths result.
Proof.
  induction rest as [|part rest' IH]; intros i current result Hplain Hwalk.
  - injection Hwalk as <-. by split; [constructor|].
  - simpl in Hwalk.
    set (fullPath := join "/" (take (i + 1) parts)) in *.
    assert (∃ c,
      default (new_node part fullPath) (children current !! part) = c
      ∧ inherited part = false ∧ plain_paths c) as (c & Hc & Hpart & Hpc).
    { destruct (children current !! part) as [c|] eqn:Hl.
      - exists c. split; [done|]. by eapply plain_paths_child.
      - destruct (inherited part) eqn:Hi; [done|].
        eexists. split; [done|]. split; [done|]. apply plain_paths_new. }
    assert (walk task parts (S i) rest'
              (if decide (i = length parts - 1)
               then push_task task (incr_taskCount c) else incr_taskCount c)
            ≫= (λ child, Some (set_child part child current)) = Some result)
      as Hwalk'.
    { rewrite <-Hc. destruct (children current !! part); [done|].
      by rewrite Hpart in Hwalk. }
    clear Hwalk. apply bind_Some in Hwalk' as (child & Hchild & [= <-]).
    apply IH in Hchild as (Hrest & -> & Hpchild).
    2:{ eapply plain_paths_children; [|exact Hpc]. by case_decide. }
    split; [by constructor|]. split.
    + simpl. fold fullPath. f_equal. f_equal.
      rewrite <-Hc. by destruct (children current !! part).
    + by apply plain_paths_set_child.
Qed.

Lemma fold_add_task_None ts :
  fold_left (λ root task, root ≫= λ root, add_task root task) ts None = None.
Proof. by induction ts. Qed.

Lemma fold_add_task_plain ts : ∀ root,
  Forall plain_topic ts →
  fold_left (λ root task, root ≫= λ root, add_task root task) ts (Some root)
  = Some (fold_left add_task_own ts root).
Proof.
  induction ts as [|t ts IH]; intros root Hts; [done|].
  apply Forall_cons in Hts as [Ht Hts]. simpl.
  unfold add_task at 2. rewrite walk_plain by done. by apply IH.
Qed.

Lemma fold_add_task_Some ts : ∀ root result,
  plain_paths root →
  fold_left (λ root task, root ≫= λ root, add_task root task) ts (Some root)
  = Some result →
  Forall plain_topic ts ∧ result = fold_left add_task_own ts root.
Proof.
  induction ts as [|t ts IH]; intros root result Hplain Hfold.
  - injection Hfold as <-. by split.
  - simpl in Hfold. destruct (add_task root t) as [root'|] eqn:Hadd.
    + apply walk_Some in Hadd as (Ht & -> & Hplain'); [|done].
      apply IH in Hfold as [Hts ->]; [|done]. by split; [constructor|].
    + by rewrite fold_add_task_None in Hfold.
Qed.

Lemma plain_paths_root n : plain_paths (mkTopicNode "All Topics" "" [] ∅ n).
Proof.
  intros [|p path] m Hm; [constructor|]. simpl in Hm.
  by rewrite lookup_empty in Hm.
Qed.

(** The builder returns a tree exactly when no topic has a segment that is
    an inherited name, and the tree is the one built on own properties. *)
Lemma buildTopicTree_Some ts tree :
  buildTopicTree ts = Some tree →
  Forall plain_topic ts ∧ tree = buildTopicTree_own ts.
Proof. apply fold_add_task_Some, plain_paths_root. Qed.

Lemma buildTopicTree_plain ts :
  Forall plain_topic ts → buildTopicTree ts = Some (buildTopicTree_own ts).
Proof. apply fold_add_task_plain. Qed.

Lemma buildTopicTree_own_eq ts tree :
  buildTopicTree ts = Some tree → tree = buildTopicTree_own ts.
Proof. by intros [_ ?]%buildTopicTree_Some. Qed.

Lemma buildTopicTree_throws ts t part :
  t ∈ ts → part ∈ split "/" (primary_topic t) → inherited part = true →
  buildTopicTree ts = None.
Proof.
  intros Hin Hpart Hinh.
  destruct (buildTopicTree ts) as [tree|] eqn:Hbuild; [|done].
  apply buildTopicTree_Some in Hbuild as [Hts _].
  eapply Forall_forall in Hts; [|exact Hin].
  eapply Forall_forall in Hts; [|exact Hpart]. congruence.
Qed.

(** C1. Tree conservation.  Whenever the builder returns a tree, the root's
    [taskCount] is the length of the task list, and so is the sum of
    [taskCount] over the root's immediate children.  It returns a tree
    exactly when no topic has a segment that names a member inherited from
    [Object.prototype]; on the other task lists, such as the one task of
    topic constructor, it throws a TypeError and there is no tree. *)
Theorem tree_conservation (ts : list Task) :
  (∀ root, buildTopicTree ts = Some root →
     taskCount root = length ts ∧ children_taskCount root = length ts)
  ∧ (is_Some (buildTopicTree ts)
     ↔ ∀ t part, t ∈ ts → part ∈ split "/" (primary_topic t) →
         inherited part = false)
  ∧ buildTopicTree [sample_task "1" None None high "constructor" pending]
    = None.
Proof.
  split; [|split; [|done]].
  - intros root ->%buildTopicTree_own_eq. unfold buildTopicTree_own. split.
    + by rewrite fold_add_task_taskCount.
    + rewrite fold_add_task_children_taskCount.
      unfold children_taskCount; simpl. by rewrite map_to_list_empty.
  - split.
    + intros [root [Hts _]%buildTopicTree_Some] t part Hin Hpart.
      eapply Forall_forall in Hts; [|exact Hin].
      by eapply Forall_forall in Hts.
    + intros Hts. rewrite buildTopicTree_plain; [done|].
      apply Forall_forall. intros t Hin. apply Forall_forall.
      intros part Hpart. by eapply Hts.
Qed.

(** The walk attaches the task to the node at the end of its path. *)
Lemma walk_attaches task parts rest i current :
  rest ≠ [] → i + length rest = length parts →
  attached_at rest task (walk_own task parts i rest current).
Proof.
  revert i current. induction rest as [|part rest' IH]; [done|].
  intros i current _ Hlen. simpl in Hlen. unfold attached_at. simpl.
  rewrite lookup_insert_eq.
  destruct rest' as [|part' rest''].
  - rewrite decide_True by (simpl in Hlen; lia). simpl.
    eexists; split; [done|]. simpl. apply elem_of_app. right.
    apply list_elem_of_here.
  - apply IH; [done|simpl in *; lia].
Qed.

Lemma attached_at_incr path t n :
  attached_at path t n → attached_at path t (incr_taskCount n).
Proof. destruct path; intros (m & Hm & Ht); [injection Hm as <-|]; by eexists. Qed.

Lemma attached_at_push path t t' n :
  attached_at path t n → attached_at path t (push_task t' n).
Proof.
  destruct path; intros (m & Hm & Ht); [injection Hm as <-|]; eexists;
    (split; [done|]); simpl; [|done].
  apply elem_of_app. by left.
Qed.

(** A walk keeps every task that is already attached somewhere. *)
Lemma walk_keeps_attached task parts rest path t i current :
  attached_at path t current →
  attached_at path t (walk_own task parts i rest current).
Proof.
  revert path i current. induction rest as [|part rest' IH]; [done|].
  intros path i current (m & Hm & Ht). simpl.
  destruct path as [|p path'].
  - injection Hm as <-. by eexists.
  - simpl in Hm. unfold attached_at. simpl.
    destruct (decide (part = p)) as [->|Hne].
    + rewrite lookup_insert_eq.
      destruct (children current !! p) as [c|] eqn:Hc; [|done].
      apply IH. case_decide.
      * apply attached_at_push, attached_at_incr. by exists m.
      * apply attached_at_incr. by exists m.
    + rewrite lookup_insert_ne by done. by exists m.
Qed.

Lemma fold_add_task_keeps_attached ts path t root :
  attached_at path t root →
  attached_at path t (fold_left add_task_own ts root).
Proof.
  revert root. induction ts as [|t' ts IH]; intros root Hat; simpl; [done|].
  by apply IH, walk_keeps_attached.
Qed.

Lemma fold_add_task_attaches ts t root :
  t ∈ ts →
  attached_at (split "/" (primary_topic t)) t (fold_left add_task_own ts root).
Proof.
  revert root. induction ts as [|t' ts IH]; intros root Hin; simpl.
  - by apply elem_of_nil in Hin.
  - apply elem_of_cons in Hin as [->|Hin]; [|by apply IH].
    apply fold_add_task_keeps_attached, walk_attaches;
      [apply split_nonempty|done].
Qed.

(** C10. Whenever the builder returns a root, its [tasks] list is empty:
    every topic splits into at least one segment, so every task of the
    input is attached to a node reached by a non-empty path below the root.
    When a topic has a segment that names a member inherited from
    [Object.prototype], the builder throws a TypeError: it returns no root
    and the task is attached nowhere. *)
Theorem root_tasks_empty (ts : list Task) :
  (∀ root, buildTopicTree ts = Some root →
     tasks root = []
     ∧ ∀ t, t ∈ ts →
         split "/" (primary_topic t) ≠ []
         ∧ attached_at (split "/" (primary_topic t)) t root)
  ∧ (∀ t part, t ∈ ts → part ∈ split "/" (primary_topic t) →
       inherited part = true → buildTopicTree ts = None)
  ∧ buildTopicTree [sample_task "1" None None high "Work" pending;
                    sample_task "2" None None low "Work/toString" pending]
    = None.
Proof.
  split; [|split; [|done]].
  - intros root ->%buildTopicTree_own_eq. split.
    + unfold buildTopicTree_own. by rewrite fold_add_task_tasks.
    + intros t Hin. split; [apply split_nonempty|].
      by apply fold_add_task_attaches.
  - intros t part. apply buildTopicTree_throws.
Qed.

Example scenario_tree :
  let tree := buildTopicTree
    [sample_task "1" None (Some 20072%Z) high "Work/Projects/Alpha" pending;
     sample_task "2" None None low "Work/Projects/Beta" completed] in
  taskCount <$> (tree ≫= node_at ["Work"]) = Some 2
  ∧ taskCount <$> (tree ≫= node_at ["Work"; "Projects"]) = Some 2
  ∧ taskCount <$> (tree ≫= node_at ["Work"; "Projects"; "Alpha"]) = Some 1
  ∧ taskCount <$> (tree ≫= node_at ["Work"; "Projects"; "Beta"]) = Some 1
  ∧ fullPath <$> (tree ≫= node_at ["Work"; "Projects"; "Beta"])
    = Some "Work/Projects/Beta".
Proof. vm_compute. done. Qed.

(** A segment that names an inherited member ends the build, wherever it
    stands in the topic. *)
Example scenario_inherited :
  buildTopicTree [sample_task "1" None None high "__proto__/x" pending] = None
  ∧ buildTopicTree [sample_task "1" None None high "Work/valueOf/x" pending]
    = None
  ∧ is_Some (buildTopicTree
               [sample_task "1" None None high "Work/Constructor" pending]).
Proof.
  split; [by vm_compute|]. split; [by vm_compute|]. vm_compute. by eexists.
Qed.

End TopicTree_facts.

(** ** Grouping *)

Module TaskList_facts.
Import Types TaskList.

Lemma bucket_union_push key bucket t (groups : list (string * list Task)) :
  Map_get key groups = Some bucket →
  bucket_union (Map_set key (bucket ++ [t]) groups) ≡ₚ t :: bucket_union groups.
Proof.
  unfold bucket_union, Map_values.
  induction groups as [|[k b] groups IH]; simpl; [done|].
  destruct (decide (k = key)) as [->|Hne]; simpl.
  - intros [= ->]. rewrite <-(assoc_L (++)); simpl.
    by rewrite <-Permutation_middle.
  - intros Hget. rewrite IH by done. by rewrite <-Permutation_middle.
Qed.

Lemma bucket_union_new key (groups : list (string * list Task)) :
  Map_get key groups = None →
  bucket_union (Map_set key [] groups) = bucket_union groups.
Proof.
  intros Hget. rewrite Map_set_absent by done.
  unfold bucket_union, Map_values.
  by rewrite fmap_app, concat_app, app_nil_r.
Qed.

(** Each turn of the loop adds the task to exactly one bucket. *)
Lemma group_step_union groupBy groups t :
  bucket_union (group_step groupBy groups t) ≡ₚ t :: bucket_union groups.
Proof.
  unfold group_step.
  destruct (Map_has (group_key groupBy t) groups) eqn:Hhas.
  - apply Map_has_true in Hhas as [bucket Hget]. rewrite Hget.
    by apply bucket_union_push.
  - apply Map_has_false in Hhas.
    rewrite Map_get_set_eq, bucket_union_push by apply Map_get_set_eq.
    by rewrite bucket_union_new.
Qed.

Lemma fold_group_step_union groupBy ts groups :
  bucket_union (fold_left (group_step groupBy) ts groups)
  ≡ₚ bucket_union groups ++ ts.
Proof.
  revert groups. induction ts as [|t ts IH]; intros groups; simpl.
  - by rewrite app_nil_r.
  - rewrite IH, group_step_union. by rewrite <-Permutation_middle.
Qed.

(** C3. Grouping partition: for every task list and every grouping key, the
    tasks of all buckets together are the input as a multiset (a permutation
    of it): no task is lost and none is duplicated. *)
Theorem grouping_partition (ts : list Task) (groupBy : GroupBy) :
  bucket_union (groupTasks ts groupBy) ≡ₚ ts.
Proof.
  destruct groupBy; try apply (fold_group_step_union _ ts []).
  unfold groupTasks, bucket_union; simpl. by rewrite app_nil_r.
Qed.

(** ** Sorting *)

Section sortTasks_facts.
Variable localeCompare : string → string → Z.

Lemma sortTasks_perm ts sortBy : sortTasks localeCompare ts sortBy ≡ₚ ts.
Proof. apply Array_sort_perm. Qed.

Global Instance deadline_le_trans : Transitive deadline_le.
Proof.
  intros a b c. unfold deadline_le.
  destruct (deadline a), (deadline b), (deadline c); try done. lia.
Qed.

Global Instance priority_le_trans : Transitive priority_le.
Proof. intros a b c. unfold priority_le. lia. Qed.

Lemma compare_deadline_decides a b :
  decides (compareTasks localeCompare SortDeadline) deadline_le a b.
Proof.
  unfold decides, deadline_le, compareTasks, Date_getTime.
  destruct (deadline a), (deadline b); split; try done; lia.
Qed.

Lemma compare_priority_decides a b :
  decides (compareTasks localeCompare SortPriority) priority_le a b.
Proof. unfold decides, priority_le, compareTasks. lia. Qed.

Lemma sortTasks_deadline_sorted ts :
  StronglySorted deadline_le (sortTasks localeCompare ts SortDeadline).
Proof.
  apply Array_sort_sorted; [apply _|].
  apply ForallOrdPairs_all, compare_deadline_decides.
Qed.

Lemma sortTasks_priority_sorted ts :
  StronglySorted priority_le (sortTasks localeCompare ts SortPriority).
Proof.
  apply Array_sort_sorted; [apply _|].
  apply ForallOrdPairs_all, compare_priority_decides.
Qed.

(** C4. Deadline sort, null last: for every task list, sorting by deadline
    rearranges the tasks in ascending order of date with every task that has
    no deadline after every task that has one; in particular the list of an
    undated task followed by a dated one comes out with the dated task
    first. *)
Theorem deadline_sort_null_last (ts : list Task) :
  let sorted := sortTasks localeCompare ts SortDeadline in
  sorted ≡ₚ ts
  ∧ StronglySorted deadline_le sorted
  ∧ (∀ i j a b, sorted !! i = Some a → sorted !! j = Some b →
       deadline a = None → deadline b ≠ None → (j < i)%nat)
  ∧ (∀ i j a b da db, sorted !! i = Some a → sorted !! j = Some b →
       deadline a = Some da → deadline b = Some db → (i < j)%nat →
       (da ≤ db)%Z)
  ∧ ∀ a b day,
      sortTasks localeCompare
        [with_deadline None a; with_deadline (Some day) b] SortDeadline
      = [with_deadline (Some day) b; with_deadline None a].
Proof.
  intros sorted.
  pose proof (sortTasks_deadline_sorted ts) as Hs. fold sorted in Hs.
  split; [apply sortTasks_perm|]. split; [done|]. split; [|split].
  - intros i j a b Hi Hj Ha Hb.
    destruct (decide (j < i)%nat) as [|Hge]; [done|exfalso].
    destruct (decide (i = j)) as [->|Hne]; [congruence|].
    assert (i < j)%nat as Hlt by lia.
    pose proof (StronglySorted_lookup_lt _ _ _ _ _ _ Hs Hlt Hi Hj) as Hle.
    unfold deadline_le in Hle. rewrite Ha in Hle. by destruct (deadline b).
  - intros i j a b da db Hi Hj Ha Hb Hlt.
    pose proof (StronglySorted_lookup_lt _ _ _ _ _ _ Hs Hlt Hi Hj) as Hle.
    unfold deadline_le in Hle. by rewrite Ha, Hb in Hle.
  - done.
Qed.

(** Stability: tasks of one priority keep their relative order. *)
Lemma priority_sort_stable ts p :
  List.filter (λ t, bool_decide (priority t = p))
    (sortTasks localeCompare ts SortPriority)
  = List.filter (λ t, bool_decide (priority t = p)) ts.
Proof.
  unfold sortTasks. induction ts as [|t ts IH]; simpl; [done|].
  rewrite sort_insert_filter.
  - simpl. by rewrite IH.
  - intros y Hc. rewrite bool_decide_eq_true, bool_decide_eq_false.
    intros <- Hy. simpl in Hc. rewrite Hy in Hc. lia.
Qed.

Lemma priority_sort_idempotent ts :
  sortTasks localeCompare (sortTasks localeCompare ts SortPriority) SortPriority
  = sortTasks localeCompare ts SortPriority.
Proof.
  apply Array_sort_fixed.
  eapply Sorted_weaken; [|apply StronglySorted_Sorted, sortTasks_priority_sorted].
  intros x y. unfold priority_le; simpl. lia.
Qed.

(** C5. Sort idempotence under stability: a task list that is already in
    priority order is returned unchanged by the priority sort, tasks of
    equal priority keeping their relative order. *)
Theorem priority_sort_fixed (ts : list Task) :
  Sorted priority_le ts →
  sortTasks localeCompare ts SortPriority = ts.
Proof.
  intros Hs. apply Array_sort_fixed.
  eapply Sorted_weaken; [|exact Hs].
  intros x y. unfold priority_le; simpl. lia.
Qed.
End sortTasks_facts.

Lemma priority_sort_fixed_witness :
  let a := sample_task "a" None None high "Work" pending in
  let b := sample_task "b" None None medium "Work" pending in
  let c := sample_task "c" None None medium "Home" completed in
  let d := sample_task "d" None None low "Home" pending in
  sortTasks (λ _ _, 0%Z) [a; b; c; d] SortPriority = [a; b; c; d].
Proof.
  apply priority_sort_fixed.
  repeat constructor; unfold priority_le; simpl; lia.
Defined.

End TaskList_facts.

(** ** Assignee rollups *)

Module Assignees_facts.
Import Assignees.

Lemma tasks_of_snoc k seen t :
  tasks_of k (seen ++ [t])
  = tasks_of k seen ++ (if decide (assignee_name t = k) then [t] else []).
Proof.
  unfold tasks_of. rewrite List.filter_app. simpl.
  case_decide; [by rewrite bool_decide_true|by rewrite bool_decide_false].
Qed.

Lemma counters_ok_step t s :
  counters_ok s →
  counters_ok (incr_status (Types.status t)
                 (incr_priority (Types.priority t) (push_task t s))).
Proof.
  unfold counters_ok, incr_status. intros (Hp & Hc & Hsum).
  assert (tasks (incr_priority (Types.priority t) (push_task t s))
          = tasks s ++ [t]) as Htasks by by destruct (Types.priority t).
  assert (pending (incr_priority (Types.priority t) (push_task t s))
          = pending s) as Hpend by by destruct (Types.priority t).
  assert (completed (incr_priority (Types.priority t) (push_task t s))
          = completed s) as Hcomp by by destruct (Types.priority t).
  case_decide as Hst; simpl; rewrite Htasks, Hpend, Hcomp, !List.filter_app,
    !length_app; simpl.
  - assert (is_completed t = true) as -> by by apply bool_decide_eq_true.
    simpl. lia.
  - assert (is_completed t = false) as -> by by apply bool_decide_eq_false.
    simpl. lia.
Qed.

Lemma step_fields t s :
  name (incr_status (Types.status t)
          (incr_priority (Types.priority t) (push_task t s))) = name s
  ∧ tasks (incr_status (Types.status t)
             (incr_priority (Types.priority t) (push_task t s)))
    = tasks s ++ [t].
Proof.
  unfold incr_status. by case_decide; destruct (Types.priority t).
Qed.

(** Updating the entry of the task's assignee keeps the invariant. *)
Lemma stats_inv_update seen stats t stat :
  Map_get (assignee_name t) stats = Some stat →
  stats_inv seen stats →
  stats_inv (seen ++ [t])
    (Map_set (assignee_name t)
       (incr_status (Types.status t)
          (incr_priority (Types.priority t) (push_task t stat))) stats).
Proof.
  intros Hget (Hnd & Hall & Hkeys).
  assert (entry_ok seen (assignee_name t, stat)) as (Hn & Ht & Hc).
  { eapply Forall_forall in Hall; [done|]. by apply Map_get_Some. }
  simpl in *. split; [|split].
  - by apply Map_set_keys_NoDup.
  - eapply Forall_Map_set_update; [exact Hall| | |done].
    + destruct (step_fields t stat) as [Hname Htasks].
      split; [|split]; simpl.
      * by rewrite Hname.
      * rewrite Htasks, Ht, tasks_of_snoc. by rewrite decide_True.
      * by apply counters_ok_step.
    + intros k x _ Hne (Hxn & Hxt & Hxc). split; [done|split; [|done]].
      simpl in *. rewrite Hxt, tasks_of_snoc.
      rewrite decide_False by done. by rewrite app_nil_r.
  - intros t' [Hin|Hin]%elem_of_app.
    + by apply Map_set_keys_mono, Hkeys.
    + apply list_elem_of_singleton in Hin as ->. apply Map_set_keys_key.
Qed.

(** Creating the entry of an assignee not met before keeps the invariant. *)
Lemma stats_inv_create seen stats k :
  Map_get k stats = None →
  stats_inv seen stats →
  stats_inv seen (Map_set k (mkAssigneeStats k [] 0 0 0 0 0) stats).
Proof.
  intros Hget (Hnd & Hall & Hkeys). split; [|split].
  - by apply Map_set_keys_NoDup.
  - apply Forall_Map_set; [done|]. split; [done|split; [|done]]. simpl.
    unfold tasks_of. symmetry. apply filter_none.
    intros t Hin. apply bool_decide_eq_false. intros <-.
    apply Map_get_None in Hget. by apply Hget, Hkeys.
  - intros t Hin. by apply Map_set_keys_mono, Hkeys.
Qed.

Lemma stats_step_inv seen stats t :
  stats_inv seen stats → stats_inv (seen ++ [t]) (stats_step stats t).
Proof.
  intros Hinv. unfold stats_step.
  destruct (Map_has (assignee_name t) stats) eqn:Hhas.
  - apply Map_has_true in Hhas as [stat Hget]. rewrite Hget.
    by apply stats_inv_update.
  - apply Map_has_false in Hhas. rewrite Map_get_set_eq.
    apply stats_inv_update; [apply Map_get_set_eq|].
    by apply stats_inv_create.
Qed.

Lemma fold_stats_step_inv ts seen stats :
  stats_inv seen stats →
  stats_inv (seen ++ ts) (fold_left stats_step ts stats).
Proof.
  revert seen stats. induction ts as [|t ts IH]; intros seen stats Hinv; simpl.
  - by rewrite app_nil_r.
  - rewrite (cons_middle t), (assoc_L (++)). by apply IH, stats_step_inv.
Qed.

Lemma stats_inv_final ts : stats_inv ts (fold_left stats_step ts []).
Proof.
  apply (fold_stats_step_inv ts [] []).
  split; [constructor|]. split; [constructor|].
  by intros t ?%elem_of_nil.
Qed.

Lemma stats_inv_names seen stats :
  stats_inv seen stats → name <$> Map_values stats = stats.*1.
Proof.
  intros (_ & Hall & _). unfold Map_values.
  induction Hall as [|[k s] stats (Hn & _) _ IH]; [done|].
  rewrite !fmap_cons. simpl in *. by f_equal.
Qed.

(** The entries of the rollup list, before and after the sort. *)
Lemma assigneeStats_entries ts :
  NoDup (name <$> assigneeStats (Some ts))
  ∧ Forall (λ s, tasks s = tasks_of (name s) ts ∧ counters_ok s)
      (assigneeStats (Some ts))
  ∧ ∀ t, t ∈ ts → assignee_name t ∈ name <$> assigneeStats (Some ts).
Proof.
  pose proof (stats_inv_final ts) as Hinv.
  pose proof (stats_inv_names _ _ Hinv) as Hnames.
  destruct Hinv as (Hnd & Hall & Hkeys). simpl.
  split; [|split].
  - by rewrite Array_sort_perm, Hnames.
  - rewrite Array_sort_perm. unfold Map_values. apply Forall_fmap.
    eapply Forall_impl; [exact Hall|].
    intros [k s] (Hn & Ht & Hc). simpl in *. by rewrite Hn.
  - intros t Hin. rewrite Array_sort_perm, Hnames. by apply Hkeys.
Qed.

Global Instance rollup_le_trans : Transitive rollup_le.
Proof.
  intros a b c [Ha Hab] [Hb Hbc]. split; [done|].
  destruct Hbc as [|Hbc]; [by left|]. destruct Hab as [|Hab]; [done|].
  right. lia.
Qed.

Lemma compareStats_decides a b :
  name a ≠ name b → decides compareStats rollup_le a b.
Proof.
  intros Hne. unfold decides, compareStats, rollup_le.
  destruct (decide (name a = "Unassigned")) as [Ha|Ha];
    destruct (decide (name b = "Unassigned")) as [Hb|Hb];
    split; intros Hc; try lia; try congruence.
  - split; [done|by left].
  - split; [done|by left].
  - split; [done|right; lia].
  - split; [done|right; lia].
Qed.

Lemma NoDup_names_decides (l : list AssigneeStats) :
  NoDup (name <$> l) → ForallOrdPairs (decides compareStats rollup_le) l.
Proof.
  induction l as [|x l IH]; simpl; [constructor|].
  rewrite NoDup_cons. intros [Hx Hl]. constructor; [|by apply IH].
  apply Forall_forall. intros y Hy. apply compareStats_decides.
  intros Heq. apply Hx. rewrite Heq. by apply list_elem_of_fmap_2.
Qed.

Lemma assigneeStats_sorted data : StronglySorted rollup_le (assigneeStats data).
Proof.
  destruct data as [ts|]; simpl; [|constructor].
  apply Array_sort_sorted; [apply _|].
  apply NoDup_names_decides.
  rewrite (stats_inv_names ts) by apply stats_inv_final.
  apply stats_inv_final.
Qed.

(** C7. Assignee rollup order: for every task list the rollup list is in
    descending order of task count, except that the entry named Unassigned
    (the one that null assignees fold to) stands at the last position
    whatever its count. *)
Theorem assignee_rollup_order (data : option (list Types.Task)) :
  let rollups := assigneeStats data in
  (∀ i j a b, rollups !! i = Some a → rollups !! j = Some b → (i < j)%nat →
     name a ≠ "Unassigned"
     ∧ (name b ≠ "Unassigned" → (length (tasks b) ≤ length (tasks a))%nat))
  ∧ (∀ s, s ∈ rollups → name s = "Unassigned" → last rollups = Some s)
  ∧ (∀ ts t, data = Some ts → t ∈ ts → Types.assignee t = None →
       ∃ s, last rollups = Some s ∧ name s = "Unassigned" ∧ t ∈ tasks s).
Proof.
  intros rollups.
  pose proof (assigneeStats_sorted data) as Hs. fold rollups in Hs.
  assert (∀ s, s ∈ rollups → name s = "Unassigned" → last rollups = Some s)
    as Hlast.
  { intros s Hin Hname.
    apply list_elem_of_split in Hin as (l1 & l2 & Heq). rewrite Heq in Hs |- *.
    apply StronglySorted_app in Hs as (_ & _ & Hs).
    apply StronglySorted_cons in Hs as [Hafter _].
    destruct l2 as [|y l2].
    - apply last_snoc.
    - apply Forall_cons in Hafter as [[Hne _] _]. done. }
  split; [|split; [done|]].
  - intros i j a b Hi Hj Hlt.
    destruct (StronglySorted_lookup_lt _ _ _ _ _ _ Hs Hlt Hi Hj) as [Ha Hb].
    split; [done|]. intros Hnb. by destruct Hb.
  - intros ts t -> Hin Hnone.
    destruct (assigneeStats_entries ts) as (_ & Hall & Hkeys).
    assert (assignee_name t = "Unassigned") as Hname
      by (unfold assignee_name; by rewrite Hnone).
    pose proof (Hkeys t Hin) as Hk. rewrite Hname in Hk.
    apply list_elem_of_fmap in Hk as (s & Hsn & Hsin).
    exists s. split; [by apply Hlast|]. split; [done|].
    eapply Forall_forall in Hall as [Ht _]; [|exact Hsin].
    rewrite Ht. unfold tasks_of. apply list_elem_of_In, List.filter_In.
    split; [by apply list_elem_of_In|].
    apply bool_decide_eq_true. congruence.
Qed.

(** C9. Every task of the input is in the rollup entry of its assignee, and
    an entry holds exactly the tasks of its assignee.  Its [pending] counter
    counts those of them whose status is not completed, the in-progress
    ones included, and its [completed] counter the completed ones, so the
    two add up to the number of tasks of that assignee. *)
Theorem pending_plus_completed (ts : list Types.Task) :
  let rollups := assigneeStats (Some ts) in
  NoDup (name <$> rollups)
  ∧ (∀ s, s ∈ rollups →
       tasks s = tasks_of (name s) ts
       ∧ pending s
         = length (List.filter (λ t, negb (is_completed t))
                     (tasks_of (name s) ts))
       ∧ completed s
         = length (List.filter is_completed (tasks_of (name s) ts))
       ∧ pending s + completed s = length (tasks_of (name s) ts))
  ∧ (∀ t, t ∈ ts →
       ∃ s, s ∈ rollups ∧ name s = assignee_name t ∧ t ∈ tasks s
            ∧ (Types.status t = Types.in_progress →
                 t ∈ List.filter (λ t, negb (is_completed t)) (tasks s)
                 ∧ 0 < pending s)).
Proof.
  intros rollups.
  destruct (assigneeStats_entries ts) as (Hnd & Hall & Hkeys).
  fold rollups in Hnd, Hall, Hkeys.
  split; [done|]. split.
  - intros s Hs. eapply Forall_forall in Hall as [Ht Hc]; [|exact Hs].
    destruct Hc as (Hp & Hc & Hsum). by rewrite <-Ht.
  - intros t Hin.
    destruct (proj1 (list_elem_of_fmap _ _ _) (Hkeys t Hin))
      as (s & Hname & Hs).
    eapply Forall_forall in Hall as [Ht (Hp & _)]; [|exact Hs].
    assert (t ∈ tasks s) as Hts.
    { rewrite Ht. unfold tasks_of. apply list_elem_of_In, List.filter_In.
      split; [by apply list_elem_of_In|by apply bool_decide_eq_true]. }
    exists s. split; [done|]. split; [done|]. split; [done|].
    intros Hst.
    assert (t ∈ List.filter (λ t, negb (is_completed t)) (tasks s)) as Hpend.
    { apply list_elem_of_In, List.filter_In.
      split; [by apply list_elem_of_In|].
      apply negb_true_iff, bool_decide_eq_false. by rewrite Hst. }
    split; [done|]. rewrite Hp.
    destruct (List.filter (λ t, negb (is_completed t)) (tasks s));
      [by apply elem_of_nil in Hpend|simpl; lia].
Qed.

(** Two tasks of one assignee, one of them in progress: both are counted
    as pending. *)
Example pending_counts_in_progress :
  assigneeStats
    (Some [Types.sample_task "1" (Some "John") None Types.high "Work"
             Types.in_progress;
           Types.sample_task "2" (Some "John") None Types.low "Work"
             Types.pending;
           Types.sample_task "3" (Some "John") None Types.low "Work"
             Types.completed])
  = [mkAssigneeStats "John"
       [Types.sample_task "1" (Some "John") None Types.high "Work"
          Types.in_progress;
        Types.sample_task "2" (Some "John") None Types.low "Work"
          Types.pending;
        Types.sample_task "3" (Some "John") None Types.low "Work"
          Types.completed]
       1 0 2 2 1].
Proof. reflexivity. Qed.

End Assignees_facts.

(** ** Dashboard statistics *)

Module Dashboard_facts.
Import Types Dashboard.
Local Open Scope Z_scope.

Lemma startOfDay_parseISO day : startOfDay (parseISO day) = parseISO day.
Proof. unfold startOfDay, parseISO, MS_PER_DAY. by rewrite Z.div_mul. Qed.

Lemma startOfDay_today now :
  startOfDay now = parseISO (now `div` MS_PER_DAY).
Proof. done. Qed.

(** A task due on the current day is not overdue. *)
Lemma today_not_overdue now t :
  deadline t = Some (now `div` MS_PER_DAY) → is_overdue now t = false.
Proof.
  intros Hd. unfold is_overdue, isToday. rewrite Hd.
  rewrite startOfDay_parseISO, <-startOfDay_today.
  rewrite bool_decide_true by done. apply andb_false_r.
Qed.

(** A task due on the current day is within the due-soon interval only at
    the very first instant of the day. *)
Lemma today_dueSoon_iff now t :
  deadline t = Some (now `div` MS_PER_DAY) →
  is_dueSoon now t = true ↔ now `mod` MS_PER_DAY = 0.
Proof.
  intros Hd. unfold is_dueSoon, isWithinInterval, addDays, parseISO. rewrite Hd.
  rewrite bool_decide_eq_true.
  pose proof (Z.div_mod now MS_PER_DAY) as Hdm.
  pose proof (Z.mod_pos_bound now MS_PER_DAY) as Hb.
  unfold MS_PER_DAY in *. lia.
Qed.

Lemma elem_of_filter_bool {A} (f : A → bool) (l : list A) x :
  x ∈ List.filter f l ↔ x ∈ l ∧ f x = true.
Proof. rewrite !list_elem_of_In. apply List.filter_In. Qed.

(** C2. A task that is not completed and whose deadline is the current date
    is never in the overdue set, but it is left out of the due-soon set as
    well whenever the current instant is past midnight: its deadline parses
    to the start of the day, which lies before the [now] that opens the
    due-soon interval. *)
Theorem today_due_in_neither_set (now : Z) (ts : list Task) (t : Task) :
  t ∈ ts →
  status t ≠ completed →
  deadline t = Some (now `div` MS_PER_DAY) →
  now `mod` MS_PER_DAY ≠ 0 →
  (t ∉ overdueTasks now ts) ∧ (t ∉ dueSoonTasks now ts).
Proof.
  intros Hin Hst Hd Hmid. unfold overdueTasks, dueSoonTasks.
  rewrite !elem_of_filter_bool. split.
  - intros [_ Ho]. by rewrite today_not_overdue in Ho.
  - intros [_ Hs]. by apply today_dueSoon_iff in Hs.
Qed.

Lemma today_due_in_neither_set_witness :
  let t := sample_task "1" None (Some 20072) high "Work" pending in
  let now := 20072 * MS_PER_DAY + 43200000 in
  (t ∉ overdueTasks now [t]) ∧ (t ∉ dueSoonTasks now [t]).
Proof.
  apply today_due_in_neither_set;
    [apply list_elem_of_here|discriminate|reflexivity|vm_compute; discriminate].
Defined.

(** The counters of the dashboard at noon of the day on which the one
    pending task is due. *)
Example today_due_counts :
  let t := sample_task "1" None (Some 20072) high "Work" pending in
  let now := 20072 * MS_PER_DAY + 43200000 in
  (dueSoon <$> dashboardStats (Some (mkTaskStatsResponse 1 ∅ ∅)) (Some [t]) now)
    = Some 0%nat
  ∧ (overdue <$> dashboardStats (Some (mkTaskStatsResponse 1 ∅ ∅)) (Some [t]) now)
    = Some 0%nat.
Proof. done. Qed.

(** At the first instant of the day the task does count as due soon. *)
Lemma today_due_at_midnight (now : Z) (ts : list Task) (t : Task) :
  t ∈ ts →
  status t ≠ completed →
  deadline t = Some (now `div` MS_PER_DAY) →
  now `mod` MS_PER_DAY = 0 →
  (t ∉ overdueTasks now ts) ∧ (t ∈ dueSoonTasks now ts).
Proof.
  intros Hin Hst Hd Hmid. unfold overdueTasks, dueSoonTasks, activeTasks.
  rewrite !elem_of_filter_bool. split.
  - intros [_ Ho]. by rewrite today_not_overdue in Ho.
  - split; [split; [done|]|by apply today_dueSoon_iff].
    by rewrite bool_decide_false.
Qed.

(** Overdue and due-soon exclude each other. *)
Lemma overdue_dueSoon_disjoint now t :
  is_overdue now t = true → is_dueSoon now t = false.
Proof.
  unfold is_overdue, is_dueSoon, isPast, isWithinInterval.
  destruct (deadline t) as [d|]; [|done].
  rewrite andb_true_iff, bool_decide_eq_true, bool_decide_eq_false. lia.
Qed.

(** C8. Completion-rate guard: when the total task count is 0 and no task
    is counted as completed, the subtitle of the Completed card shows 0%:
    the quotient 0/0 is not a number and [|| 0] turns it into 0. *)
Theorem completion_rate_guard (Number_digits : spec_float → string)
    (stats : DashboardStats) :
  total stats = 0 →
  count_or0 (byStatus stats) "completed" = 0 →
  completionRate Number_digits stats = "0% completion rate".
Proof.
  intros Htotal Hcompleted. unfold completionRate.
  by rewrite Htotal, Hcompleted.
Qed.

Lemma completion_rate_guard_witness :
  completionRate (λ _, "") (mkDashboardStats 0 ∅ ∅ 0 0 [] [])
  = "0% completion rate".
Proof.
  apply (completion_rate_guard (λ _, "") (mkDashboardStats 0 ∅ ∅ 0 0 [] []));
    reflexivity.
Defined.

(** With a total of 0 and a completed count that is not 0 the quotient is an
    infinity, which the guard lets through: the card does not show 0%. *)
Lemma completion_rate_guard_counterexample :
  let stats := mkDashboardStats 0 {["completed" := 1]} ∅ 0 0 [] [] in
  total stats = 0
  ∧ completionRate (λ _, "") stats = "Infinity% completion rate"
  ∧ completionRate (λ _, "") stats ≠ "0% completion rate".
Proof. done. Qed.

Example completion_rate_one_in_eight :
  completionRate (λ _, "") (mkDashboardStats 8 {["completed" := 1]} ∅ 0 0 [] [])
  = "13% completion rate".
Proof. done. Qed.

(** The quotient and the product are rounded as the engine rounds them:
    23 of 40 comes to a little less than 57.5. *)
Example completion_rate_23_of_40 :
  completionRate (λ _, "") (mkDashboardStats 40 {["completed" := 23]} ∅ 0 0 [] [])
  = "57% completion rate".
Proof. done. Qed.

End Dashboard_facts.

(** ** The filter state and the URL *)

Module Tasks_facts.
Import Tasks.

Lemma get_set_if_truthy_eq name value params :
  URLSearchParams_get name (set_if_truthy name value params)
  = if truthy value then value else URLSearchParams_get name params.
Proof.
  unfold set_if_truthy, URLSearchParams_get.
  destruct value as [v|]; [|done]. destruct (truthy (Some v)); [|done].
  induction params as [|[k x] params IH]; simpl.
  - by rewrite decide_True.
  - destruct (decide (k = name)) as [->|Hne]; simpl.
    + by rewrite decide_True.
    + by rewrite decide_False.
Qed.

Lemma get_set_ne name name' value params :
  name ≠ name' →
  URLSearchParams_get name' (URLSearchParams_set name value params)
  = URLSearchParams_get name' params.
Proof.
  intros Hne. unfold URLSearchParams_get.
  induction params as [|[k x] params IH]; simpl.
  - by rewrite decide_False.
  - destruct (decide (k = name)) as [->|Hk]; simpl.
    + rewrite !decide_False by done. clear IH.
      induction params as [|[k' x'] params IH]; simpl; [done|].
      destruct (decide (k' = name)) as [->|Hk'].
      * rewrite bool_decide_true by done. simpl.
        by rewrite decide_False.
      * rewrite bool_decide_false by done. simpl.
        by rewrite IH.
    + by rewrite IH.
Qed.

Lemma get_set_if_truthy_ne name name' value params :
  name ≠ name' →
  URLSearchParams_get name' (set_if_truthy name value params)
  = URLSearchParams_get name' params.
Proof.
  intros Hne. unfold set_if_truthy.
  destruct value as [v|]; [|done]. destruct (truthy (Some v)); [|done].
  by apply get_set_ne.
Qed.

Lemma absent_as_null_id o : o ≠ Some "" → absent_as_null o = o.
Proof.
  unfold absent_as_null. destruct o as [s|]; simpl; [|done].
  destruct (String.eqb_spec s ""); simpl; congruence.
Qed.

Lemma readFilters_handleFilterChange f :
  readFilters (handleFilterChange f)
  = mkFilterState (absent_as_null (status f)) (absent_as_null (topic f))
      (absent_as_null (assignee f)) (absent_as_null (priority f)) (search f).
Proof.
  unfold readFilters, handleFilterChange.
  rewrite !(get_set_if_truthy_ne "q") by done.
  rewrite get_set_if_truthy_eq.
  rewrite !(get_set_if_truthy_ne "priority") by done.
  rewrite get_set_if_truthy_eq.
  rewrite !(get_set_if_truthy_ne "assignee") by done.
  rewrite get_set_if_truthy_eq.
  rewrite !(get_set_if_truthy_ne "topic") by done.
  rewrite get_set_if_truthy_eq.
  rewrite !(get_set_if_truthy_ne "status") by done.
  rewrite get_set_if_truthy_eq.
  unfold absent_as_null, URLSearchParams_get. simpl.
  f_equal; try by destruct (truthy _).
  unfold or_opt, or_else. simpl.
  destruct (String.eqb_spec (search f) "") as [Hs|Hs]; simpl.
  - fold (URLSearchParams_get "q"). by rewrite !get_set_if_truthy_ne.
  - by destruct (String.eqb_spec (search f) "").
Qed.

(** C6. URL round-trip: writing a filter state to the query string (fields
    that are not empty only, the search text under [q]) and reading the
    query string back gives every field back as it was, a field that was
    not written reading back as null (as the empty string for [search]); so
    a state whose nullable fields are null or non-empty is reconstructed
    exactly.  On reading, a non-empty [search] parameter is accepted for the
    search text as well, before [q]. *)
Theorem url_round_trip (f : FilterState) :
  let f' := readFilters (handleFilterChange f) in
  status f' = absent_as_null (status f)
  ∧ topic f' = absent_as_null (topic f)
  ∧ assignee f' = absent_as_null (assignee f)
  ∧ priority f' = absent_as_null (priority f)
  ∧ search f' = search f
  ∧ (no_empty_field f → f' = f)
  ∧ (∀ params s, URLSearchParams_get "search" params = Some s → s ≠ "" →
       search (readFilters params) = s)
  ∧ (∀ params s, truthy (URLSearchParams_get "search" params) = false →
       URLSearchParams_get "q" params = Some s →
       search (readFilters params) = s).
Proof.
  intros f'. unfold f'. rewrite readFilters_handleFilterChange. simpl.
  do 5 (split; [done|]). split; [|split].
  - intros (Hs & Ht & Ha & Hp). destruct f as [st to asg pr se]; simpl in *.
    by rewrite !absent_as_null_id.
  - intros params s Hget Hne. unfold readFilters, or_opt, or_else; simpl.
    rewrite Hget. simpl.
    destruct (String.eqb_spec s ""); simpl; [done|].
    by destruct (String.eqb_spec s "").
  - intros params s Hsearch Hq. unfold readFilters, or_opt, or_else; simpl.
    rewrite Hsearch, Hq. by destruct (String.eqb_spec s "").
Qed.

Example url_round_trip_example :
  handleFilterChange
    (mkFilterState (Some "pending") None None (Some "high") "budget")
  = [("status", "pending"); ("priority", "high"); ("q", "budget")]
  ∧ readFilters [("status", "pending"); ("priority", "high"); ("q", "budget")]
    = mkFilterState (Some "pending") None None (Some "high") "budget".
Proof. done. Qed.

(** An empty string in a nullable field is not written and reads back as
    null. *)
Example url_round_trip_empty_field :
  readFilters (handleFilterChange (mkFilterState (Some "") None None None ""))
  = mkFilterState None None None None "".
Proof. done. Qed.

End Tasks_facts.

(** ** More on strings *)

(** [split] and [join] are inverse to each other on every string. *)
Lemma join_split s : join "/" (split "/" s) = s.
Proof.
  unfold join. induction s as [|c r IH]; simpl; [done|].
  destruct (Ascii.eqb_spec c "/") as [->|Hc].
  - destruct (split "/" r) as [|seg segs] eqn:Hsplit;
      [by apply split_nonempty in Hsplit|].
    simpl in *. by rewrite IH.
  - destruct (split "/" r) as [|seg segs] eqn:Hsplit;
      [by apply split_nonempty in Hsplit|].
    destruct segs as [|seg' segs]; simpl in *; by rewrite <-IH.
Qed.

Lemma prefix_refl_app (a b : string) : String.prefix a (a +:+ b) = true.
Proof.
  induction a as [|c a IH]; simpl; [by destruct b|].
  by destruct (ascii_dec c c).
Qed.

Lemma prefix_app_same (a b c : string) :
  String.prefix b c = true → String.prefix (a +:+ b) (a +:+ c) = true.
Proof.
  intros Hbc. induction a as [|x a IH]; simpl; [done|].
  by destruct (ascii_dec x x).
Qed.

Lemma prefix_empty (s : string) : String.prefix "" s = true.
Proof. by destruct s. Qed.

Lemma prefix_refl (s : string) : String.prefix s s = true.
Proof. induction s as [|c s IH]; simpl; [done|]. by destruct (ascii_dec c c). Qed.

(** The join of the first segments of a path is a prefix of the join of the
    whole path. *)
Lemma join_prefix (l1 l2 : list string) :
  String.prefix (join "/" l1) (join "/" (l1 ++ l2)) = true.
Proof.
  unfold join. induction l1 as [|x l1 IH]; [apply prefix_empty|].
  destruct l1 as [|y l1].
  - simpl. destruct l2 as [|z l2]; [apply prefix_refl|apply prefix_refl_app].
  - change (String.prefix (x +:+ "/" +:+ String.concat "/" (y :: l1))
              (x +:+ "/" +:+ String.concat "/" ((y :: l1) ++ l2)) = true).
    by do 2 apply prefix_app_same.
Qed.

(** ** The nodes of the topic tree *)

Module TopicTree_nodes.
Import Types TopicTree TopicTree_facts.

Lemma filter_snoc {A} (f : A → bool) (l : list A) x :
  List.filter f (l ++ [x]) = List.filter f l ++ (if f x then [x] else []).
Proof. rewrite List.filter_app. simpl. by destruct (f x). Qed.

Lemma passes_through_shorter pre path t :
  passes_through (pre ++ path) t = true → passes_through pre t = true.
Proof.
  unfold passes_through. rewrite !bool_decide_eq_true. apply prefix_app_l.
Qed.

Lemma filter_passes_nil pre path seen :
  List.filter (passes_through pre) seen = [] →
  List.filter (passes_through (pre ++ path)) seen = [].
Proof.
  intros Hnil. apply filter_none. intros t Hin.
  destruct (passes_through (pre ++ path) t) eqn:Hp; [|done].
  apply passes_through_shorter in Hp.
  assert (t ∈ List.filter (passes_through pre) seen) as Ht
    by by apply list_elem_of_In, List.filter_In; rewrite <-list_elem_of_In.
  rewrite Hnil in Ht. by apply elem_of_nil in Ht.
Qed.

Lemma ends_at_passes path t : ends_at path t = true → passes_through path t = true.
Proof.
  unfold ends_at, passes_through. rewrite !bool_decide_eq_true. by intros ->.
Qed.

(** A task that does not pass through a node leaves it as it is. *)
Lemma node_ok_snoc_other path seen t n :
  passes_through path t = false →
  node_ok path seen n → node_ok path (seen ++ [t]) n.
Proof.
  intros Hp (Hc & Hpos & Ht & Hf & Hn). unfold node_ok.
  rewrite !filter_snoc, Hp.
  destruct (ends_at path t) eqn:He; [by rewrite (ends_at_passes _ _ He) in Hp|].
  by rewrite !app_nil_r.
Qed.

Lemma node_at_children path a b :
  path ≠ [] → children a = children b → node_at path a = node_at path b.
Proof. destruct path; [done|]. simpl. by intros _ ->. Qed.

Lemma node_at_new path part fullPath :
  path ≠ [] → node_at path (new_node part fullPath) = None.
Proof. destruct path; [done|]. intros _. simpl. by rewrite lookup_empty. Qed.

Lemma passes_through_app pre path rest t :
  topic_path t = pre ++ rest →
  passes_through (pre ++ path) t = bool_decide (path `prefix_of` rest).
Proof.
  intros Ht. unfold passes_through. rewrite Ht. apply bool_decide_ext. split.
  - apply prefix_app_inv.
  - apply prefix_app.
Qed.

(** One walk keeps the description of the subtree, now with the task
    added. *)
Lemma walk_subtree_ok t parts rest : ∀ pre current seen,
  topic_path t = parts → parts = pre ++ rest →
  subtree_ok pre seen current →
  subtree_ok pre (seen ++ [t]) (walk_own t parts (length pre) rest current).
Proof.
  induction rest as [|part rest' IH]; intros pre current seen Ht Hparts Hinv.
  - simpl. intros path Hpath. specialize (Hinv path Hpath).
    assert (passes_through (pre ++ path) t = false) as Hp.
    { rewrite (passes_through_app pre path []) by congruence.
      apply bool_decide_eq_false. intros ->%prefix_nil_inv. done. }
    destruct (node_at path current) as [n|].
    + by apply node_ok_snoc_other.
    + by rewrite filter_snoc, Hinv, Hp.
  - intros path Hpath. destruct path as [|p path']; [done|].
    simpl. destruct (decide (p = part)) as [->|Hne].
    2:{ rewrite lookup_insert_ne by done.
        specialize (Hinv (p :: path') Hpath). simpl in Hinv.
        assert (passes_through (pre ++ p :: path') t = false) as Hp.
        { rewrite (passes_through_app pre _ (part :: rest')) by congruence.
          apply bool_decide_eq_false. by intros ?%prefix_cons_inv_1. }
        destruct (children current !! p) as [c|]; simpl in *.
        - destruct (node_at path' c) as [n|].
          + by apply node_ok_snoc_other.
          + by rewrite filter_snoc, Hinv, Hp.
        - by rewrite filter_snoc, Hinv, Hp. }
    rewrite lookup_insert_eq.
    set (child := match children current !! part with
                  | Some c => c
                  | None => new_node part (join "/" (take (length pre + 1) parts))
                  end).
    set (child' := if decide (length pre = length parts - 1)
                   then push_task t (incr_taskCount child)
                   else incr_taskCount child).
    assert (children child' = children child) as Hch
      by (unfold child'; by case_decide).
    assert (node_ok (pre ++ [part]) seen child
            ∨ (children current !! part = None
               ∧ List.filter (passes_through (pre ++ [part])) seen = []))
      as Hchild.
    { specialize (Hinv [part]). simpl in Hinv. unfold child.
      destruct (children current !! part) as [c|]; [left|right]; auto. }
    destruct path' as [|p' path''].
    + (* the node under [part] itself *)
      simpl.
      assert (passes_through (pre ++ [part]) t = true) as Hp.
      { rewrite (passes_through_app pre _ (part :: rest')) by congruence.
        apply bool_decide_eq_true, prefix_cons, prefix_nil. }
      assert (ends_at (pre ++ [part]) t
              = bool_decide (length pre = length parts - 1)) as He.
      { unfold ends_at. apply bool_decide_ext. rewrite Ht, Hparts.
        rewrite length_app. simpl. split.
        - intros Heq%(f_equal length). rewrite !length_app in Heq.
          simpl in Heq. lia.
        - intros Hlen. destruct rest'; [done|simpl in Hlen; lia]. }
      unfold node_ok.
      rewrite walk_taskCount, walk_tasks, !filter_snoc, Hp, He.
      destruct (walk_name t parts rest' (S (length pre)) child') as [-> ->].
      assert (taskCount child' = S (taskCount child)
              ∧ tasks child'
                = tasks child ++ (if bool_decide (length pre = length parts - 1)
                                  then [t] else [])
              ∧ fullPath child' = fullPath child
              ∧ name child' = name child) as (-> & -> & -> & ->).
      { unfold child'. case_decide.
        - by rewrite bool_decide_true.
        - rewrite bool_decide_false by done. simpl. by rewrite app_nil_r. }
      rewrite length_app. simpl.
      destruct Hchild as [(Hc & Hpos & Htk & Hf & Hn)|[Hnone Hnil]].
      * rewrite Hc, Htk, Hf. split; [lia|]. split; [lia|done].
      * unfold child. rewrite Hnone, Hnil. simpl.
        rewrite last_snoc. split; [done|]. split; [lia|].
        split; [|split; [|done]].
        -- assert (List.filter (ends_at (pre ++ [part])) seen = []) as ->;
             [|done].
           apply filter_none. intros t' Hin.
           destruct (ends_at (pre ++ [part]) t') eqn:He'; [|done].
           apply ends_at_passes in He'.
           assert (t' ∈ List.filter (passes_through (pre ++ [part])) seen)
             as Hin' by by apply list_elem_of_In, List.filter_In;
                           rewrite <-list_elem_of_In.
           rewrite Hnil in Hin'. by apply elem_of_nil in Hin'.
        -- rewrite Hparts, (cons_middle part pre rest'), (assoc_L (++)).
           rewrite take_app_length'; [done|].
           rewrite length_app. simpl. lia.
    + (* a node further down *)
      assert (subtree_ok (pre ++ [part]) seen child') as Hsub.
      { intros q Hq. rewrite (node_at_children q child' child) by done.
        rewrite <-(assoc_L (++)). unfold child.
        destruct (children current !! part) as [c|] eqn:Hc.
        - specialize (Hinv (part :: q)). simpl in Hinv. rewrite Hc in Hinv.
          by apply Hinv.
        - rewrite node_at_new by done.
          specialize (Hinv [part]). simpl in Hinv. rewrite Hc in Hinv.
          rewrite (assoc_L (++)). apply filter_passes_nil. by apply Hinv. }
      assert (parts = (pre ++ [part]) ++ rest') as Hparts'
        by by rewrite <-(assoc_L (++)).
      pose proof (IH _ _ _ Ht Hparts' Hsub (p' :: path'')) as Hres.
      rewrite length_app, Nat.add_1_r, <-(assoc_L (++)) in Hres.
      by apply Hres.
Qed.

Lemma add_task_subtree_ok seen root t :
  subtree_ok [] seen root → subtree_ok [] (seen ++ [t]) (add_task_own root t).
Proof. intros Hinv. by apply (walk_subtree_ok t _ _ [] root seen). Qed.

Lemma fold_add_task_subtree_ok ts seen root :
  subtree_ok [] seen root →
  subtree_ok [] (seen ++ ts) (fold_left add_task_own ts root).
Proof.
  revert seen root. induction ts as [|t ts IH]; intros seen root Hinv; simpl.
  - by rewrite app_nil_r.
  - rewrite (cons_middle t), (assoc_L (++)).
    by apply IH, add_task_subtree_ok.
Qed.

Lemma buildTopicTree_subtree_ok ts : subtree_ok [] ts (buildTopicTree_own ts).
Proof.
  apply (fold_add_task_subtree_ok ts []).
  intros [|p path] Hpath; [done|]. simpl. by rewrite lookup_empty.
Qed.

(** X1. In the tree that the builder returns, the node at a path counts the
    tasks whose topic passes through it, holds the tasks whose topic ends
    there in input order, and is named after the path. *)
Theorem node_contents (ts : list Task) (tree : TopicNode)
    (path : list string) (n : TopicNode) :
  buildTopicTree ts = Some tree →
  path ≠ [] →
  node_at path tree = Some n →
  taskCount n = length (List.filter (passes_through path) ts)
  ∧ tasks n = List.filter (ends_at path) ts
  ∧ fullPath n = join "/" path
  ∧ Some (name n) = last path.
Proof.
  intros ->%buildTopicTree_own_eq Hpath Hn.
  pose proof (buildTopicTree_subtree_ok ts path Hpath) as H.
  rewrite Hn in H. simpl in H. by destruct H as (? & _ & ? & ? & ?).
Qed.

Lemma node_contents_witness :
  let ts := [sample_task "1" None None high "Work/Projects/Alpha" pending;
             sample_task "2" None None low "Work/Projects/Beta" completed] in
  ∃ tree n,
    buildTopicTree ts = Some tree
    ∧ node_at ["Work"; "Projects"] tree = Some n
    ∧ taskCount n = 2 ∧ tasks n = [] ∧ fullPath n = "Work/Projects".
Proof.
  intros ts.
  eassert (buildTopicTree ts = Some _) as Htree by (vm_compute; reflexivity).
  eassert (buildTopicTree ts ≫= node_at ["Work"; "Projects"] = Some _) as Hn
    by (vm_compute; reflexivity).
  rewrite Htree in Hn. simpl in Hn.
  destruct (node_contents _ _ ["Work"; "Projects"] _ Htree
              ltac:(discriminate) Hn)
    as (Hc & Ht & Hf & _).
  eexists _, _. split; [exact Htree|]. split; [exact Hn|].
  rewrite Hc, Ht, Hf. by vm_compute.
Defined.

(** X2. In the tree that the builder returns, a path leads to a node exactly
    when the topic of some task passes through it: the tree has no node
    without tasks, and every prefix of a topic has its node. *)
Theorem node_exists_iff (ts : list Task) (tree : TopicNode)
    (path : list string) :
  buildTopicTree ts = Some tree →
  path ≠ [] →
  is_Some (node_at path tree)
  ↔ ∃ t, t ∈ ts ∧ path `prefix_of` topic_path t.
Proof.
  intros ->%buildTopicTree_own_eq Hpath.
  pose proof (buildTopicTree_subtree_ok ts path Hpath) as H.
  simpl in H. split.
  - intros [n Hn]. rewrite Hn in H. destruct H as (Hc & Hpos & _).
    destruct (List.filter (passes_through path) ts) as [|t l] eqn:Hf;
      [simpl in Hc; lia|].
    assert (t ∈ List.filter (passes_through path) ts) as Hin
      by (rewrite Hf; apply list_elem_of_here).
    apply list_elem_of_In, List.filter_In in Hin as [Hin Hp].
    exists t. split; [by apply list_elem_of_In|].
    by apply bool_decide_eq_true in Hp.
  - intros (t & Hin & Hp).
    destruct (node_at path (buildTopicTree_own ts)) as [n|]; [done|].
    assert (t ∈ List.filter (passes_through path) ts) as Hin'.
    { apply list_elem_of_In, List.filter_In. split; [by apply list_elem_of_In|].
      by apply bool_decide_eq_true. }
    rewrite H in Hin'. by apply elem_of_nil in Hin'.
Qed.

Lemma node_exists_iff_witness :
  let ts := [sample_task "1" None None high "Work/Alpha" pending] in
  ∃ tree,
    buildTopicTree ts = Some tree
    ∧ (is_Some (node_at ["Work"] tree)
       ↔ ∃ t, t ∈ ts ∧ ["Work"] `prefix_of` topic_path t).
Proof.
  intros ts.
  eassert (buildTopicTree ts = Some _) as Htree by (vm_compute; reflexivity).
  eexists. split; [exact Htree|].
  apply (node_exists_iff _ _ _ Htree). discriminate.
Defined.

Lemma children_taskCount_ext a b :
  children a = children b → children_taskCount a = children_taskCount b.
Proof. unfold children_taskCount. by intros ->. Qed.

(** One walk keeps every node below the current one balanced. *)
Lemma walk_balanced t parts rest : ∀ i current,
  i + length rest = length parts →
  subtree_balanced current →
  subtree_balanced (walk_own t parts i rest current).
Proof.
  induction rest as [|part rest' IH]; intros i current Hlen Hbal; [done|].
  intros path n Hpath Hn. destruct path as [|p path']; [done|].
  simpl in Hn. destruct (decide (p = part)) as [->|Hne].
  2:{ rewrite lookup_insert_ne in Hn by done. by apply (Hbal (p :: path')). }
  rewrite lookup_insert_eq in Hn.
  set (child := match children current !! part with
                | Some c => c
                | None => new_node part (join "/" (take (i + 1) parts))
                end) in *.
  set (child' := if decide (i = length parts - 1)
                 then push_task t (incr_taskCount child)
                 else incr_taskCount child) in *.
  assert (children child' = children child) as Hch
    by (unfold child'; by case_decide).
  assert (balanced child) as Hchild.
  { unfold child. destruct (children current !! part) as [c|] eqn:Hc.
    - apply (Hbal [part]); [done|]. simpl. by rewrite Hc.
    - unfold balanced, children_taskCount. simpl.
      by rewrite map_to_list_empty. }
  simpl in Hlen. destruct path' as [|p' path''].
  - injection Hn as <-. unfold balanced in *.
    rewrite walk_taskCount, walk_tasks.
    destruct rest' as [|part' rest''].
    + simpl. unfold child'. rewrite decide_True by (simpl in Hlen; lia).
      simpl. rewrite length_app. simpl.
      rewrite (children_taskCount_ext _ child) by done. lia.
    + rewrite walk_children_taskCount by done.
      unfold child'. rewrite decide_False by (simpl in Hlen; lia). simpl.
      rewrite (children_taskCount_ext _ child) by done. lia.
  - apply (IH (S i) child') with (path := p' :: path''); [lia| |done|done].
    intros q m Hq Hm. rewrite (node_at_children q child' child) in Hm by done.
    unfold child in Hm. destruct (children current !! part) as [c|] eqn:Hc.
    + apply (Hbal (part :: q)); [done|]. simpl. by rewrite Hc.
    + by rewrite node_at_new in Hm.
Qed.

Lemma fold_add_task_balanced ts root :
  subtree_balanced root → subtree_balanced (fold_left add_task_own ts root).
Proof.
  revert root. induction ts as [|t ts IH]; intros root Hbal; simpl; [done|].
  apply IH. by apply walk_balanced.
Qed.

(** X3. In the tree that the builder returns, every node below the root
    counts its own tasks plus the counts of its children. *)
Theorem node_balanced (ts : list Task) (tree : TopicNode)
    (path : list string) (n : TopicNode) :
  buildTopicTree ts = Some tree →
  path ≠ [] →
  node_at path tree = Some n →
  taskCount n = length (tasks n) + children_taskCount n.
Proof.
  intros ->%buildTopicTree_own_eq Hpath Hn. unfold buildTopicTree_own in Hn.
  eapply fold_add_task_balanced; [|exact Hpath|exact Hn].
  intros [|p q] m Hq Hm; [done|]. simpl in Hm. by rewrite lookup_empty in Hm.
Qed.

Lemma node_balanced_witness :
  ∃ tree n,
    buildTopicTree [sample_task "1" None None high "Work" pending;
                    sample_task "2" None None low "Work/Beta" completed]
    = Some tree
    ∧ node_at ["Work"] tree = Some n
    ∧ taskCount n = length (tasks n) + children_taskCount n.
Proof.
  set (ts := [sample_task "1" None None high "Work" pending;
              sample_task "2" None None low "Work/Beta" completed]).
  eassert (buildTopicTree ts = Some _) as Htree by (vm_compute; reflexivity).
  eassert (buildTopicTree ts ≫= node_at ["Work"] = Some _) as Hn
    by (vm_compute; reflexivity).
  rewrite Htree in Hn. simpl in Hn.
  eexists _, _. split; [exact Htree|]. split; [exact Hn|].
  exact (node_balanced _ _ ["Work"] _ Htree ltac:(discriminate) Hn).
Defined.

(** X4. In the tree that the builder returns, every task sits in a node
    whose [fullPath] is its [primary_topic]. *)
Theorem task_node_fullPath (ts : list Task) (tree : TopicNode) (t : Task) :
  buildTopicTree ts = Some tree →
  t ∈ ts →
  ∃ n, node_at (topic_path t) tree = Some n
       ∧ t ∈ tasks n
       ∧ fullPath n = primary_topic t.
Proof.
  intros ->%buildTopicTree_own_eq Hin.
  destruct (fold_add_task_attaches ts t
              (mkTopicNode "All Topics" "" [] ∅ (length ts)) Hin)
    as (n & Hn & Ht).
  exists n. split; [done|]. split; [done|].
  pose proof (buildTopicTree_subtree_ok ts (topic_path t)
                (split_nonempty _ _)) as Hok.
  unfold buildTopicTree_own, topic_path in *. rewrite Hn in Hok.
  destruct Hok as (_ & _ & _ & Hf & _). rewrite Hf. apply join_split.
Qed.

Lemma task_node_fullPath_witness :
  let t := sample_task "2" None None low "Work/Beta" completed in
  ∃ tree n,
    buildTopicTree [sample_task "1" None None high "Work" pending; t]
    = Some tree
    ∧ node_at (topic_path t) tree = Some n
    ∧ t ∈ tasks n
    ∧ fullPath n = "Work/Beta".
Proof.
  intros t.
  eassert (buildTopicTree [sample_task "1" None None high "Work" pending; t]
           = Some _) as Htree by (vm_compute; reflexivity).
  destruct (task_node_fullPath _ _ t Htree) as (n & Hn);
    [apply list_elem_of_further, list_elem_of_here|].
  eexists _, n. by split; [exact Htree|].
Defined.

End TopicTree_nodes.

(** ** The task query *)

Lemma filter_filter_and {A} (p q : A → bool) (l : list A) :
  List.filter q (List.filter p l) = List.filter (λ x, p x && q x) l.
Proof.
  induction l as [|x l IH]; simpl; [done|].
  destruct (p x) eqn:Hp; simpl; [|done].
  destruct (q x); by rewrite IH.
Qed.

Lemma filter_all {A} (p : A → bool) (l : list A) :
  (∀ x, x ∈ l → p x = true) → List.filter p l = l.
Proof.
  induction l as [|x l IH]; simpl; intros Hp; [done|].
  rewrite (Hp x) by apply list_elem_of_here.
  f_equal. apply IH. intros y Hy. by apply Hp, list_elem_of_further.
Qed.

Lemma filter_sublist_bool {A} (p : A → bool) (l : list A) :
  List.filter p l `sublist_of` l.
Proof.
  induction l as [|x l IH]; simpl; [done|].
  destruct (p x); [by apply sublist_skip|by apply sublist_cons].
Qed.

Lemma filter_sublist_impl {A} (p q : A → bool) (l : list A) :
  (∀ x, x ∈ l → p x = true → q x = true) →
  List.filter p l `sublist_of` List.filter q l.
Proof.
  induction l as [|x l IH]; simpl; intros Hpq; [done|].
  assert (List.filter p l `sublist_of` List.filter q l) as Hl
    by (apply IH; intros y Hy; by apply Hpq, list_elem_of_further).
  destruct (p x) eqn:Hp.
  - rewrite (Hpq x) by (done || apply list_elem_of_here). by apply sublist_skip.
  - destruct (q x); [by apply sublist_cons|done].
Qed.

Module useTasks_facts.
Import Types useTasks.

Lemma when_truthy_filter value (p : string → Task → bool) ts :
  when_truthy value (λ v, List.filter (p v)) ts
  = List.filter (constraint value p) ts.
Proof.
  unfold when_truthy, constraint. destruct value as [v|].
  - destruct (String.eqb v ""); [|done]. symmetry. by apply filter_all.
  - symmetry. by apply filter_all.
Qed.

Lemma filter_assignee_matches value ts :
  filter_assignee value ts = List.filter (matches_assignee value) ts.
Proof.
  unfold filter_assignee, matches_assignee. by destruct (decide _).
Qed.

Lemma when_truthy_assignee value ts :
  when_truthy value filter_assignee ts
  = List.filter (constraint value matches_assignee) ts.
Proof.
  rewrite <-when_truthy_filter. unfold when_truthy.
  destruct value as [v|]; [|done].
  destruct (String.eqb v ""); [done|]. apply filter_assignee_matches.
Qed.

Lemma constraint_falsy value p t :
  truthy value = false → constraint value p t = true.
Proof.
  unfold truthy, constraint. destruct value as [v|]; [|done].
  by destruct (String.eqb v "").
Qed.

Section query_facts.
Variable toLowerCase : string → string.

(** Applying the filters one after the other keeps the tasks that meet all
    the constraints at once. *)
Lemma applyFilters_matches ts filters :
  applyFilters toLowerCase ts filters
  = List.filter (matches toLowerCase filters) ts.
Proof.
  unfold applyFilters, matches.
  rewrite (when_truthy_filter _ matches_status _
           : when_truthy _ filter_status _ = _).
  rewrite (when_truthy_filter _ matches_topic _
           : when_truthy _ filter_topic _ = _).
  rewrite when_truthy_assignee.
  rewrite (when_truthy_filter _ matches_priority _
           : when_truthy _ filter_priority _ = _).
  rewrite (when_truthy_filter _ (matches_search toLowerCase) _
           : when_truthy _ (filter_search toLowerCase) _ = _).
  rewrite !filter_filter_and. apply List.filter_ext. intros t.
  by rewrite !andb_assoc.
Qed.

(** X7. The query returns an order-preserving selection of the mock tasks: a
    task is returned exactly when it is in the list and meets every
    constraint, and [total] and [count] are the number of tasks returned,
    whatever the pagination. *)
Theorem mockQuery_selection (mockTasks : list Task)
    (filters : Tasks.FilterState) (pagination : option Pagination) :
  let response := mockQuery toLowerCase mockTasks filters pagination in
  tasks response `sublist_of` mockTasks
  ∧ (∀ t, t ∈ tasks response
          ↔ t ∈ mockTasks ∧ matches toLowerCase filters t = true)
  ∧ total response = length (tasks response)
  ∧ count response = length (tasks response)
  ∧ tasks response = tasks (mockQuery toLowerCase mockTasks filters None).
Proof.
  simpl. rewrite applyFilters_matches. split; [apply filter_sublist_bool|].
  split; [|done]. intros t. rewrite !list_elem_of_In. apply List.filter_In.
Qed.

(** X8. With no active filter the query returns the mock tasks unchanged. *)
Theorem applyFilters_identity (ts : list Task) (filters : Tasks.FilterState) :
  FilterBar.hasActiveFilters filters = false →
  applyFilters toLowerCase ts filters = ts.
Proof.
  unfold FilterBar.hasActiveFilters. rewrite !orb_false_iff.
  intros ((((Hs & Ht) & Ha) & Hp) & Hq).
  rewrite applyFilters_matches. apply filter_all. intros t _.
  unfold matches. by rewrite !constraint_falsy.
Qed.

(** X9. Filtering twice: the order of two filter states does not matter, a
    filter state applied twice filters once, and a status constraint and a
    priority constraint can be applied together or one after the other. *)
Theorem applyFilters_compose (ts : list Task) (f g : Tasks.FilterState) :
  applyFilters toLowerCase (applyFilters toLowerCase ts f) g
  = applyFilters toLowerCase (applyFilters toLowerCase ts g) f
  ∧ applyFilters toLowerCase (applyFilters toLowerCase ts f) f
    = applyFilters toLowerCase ts f
  ∧ ∀ status priority,
      applyFilters toLowerCase ts
        (Tasks.mkFilterState status None None priority "")
      = applyFilters toLowerCase
          (applyFilters toLowerCase ts
             (Tasks.mkFilterState status None None None ""))
          (Tasks.mkFilterState None None None priority "").
Proof.
  rewrite !applyFilters_matches, !filter_filter_and. split; [|split].
  - apply List.filter_ext. intros t. apply andb_comm.
  - apply List.filter_ext. intros t. by destruct (matches _ f t).
  - intros status priority. rewrite !applyFilters_matches, filter_filter_and.
    apply List.filter_ext. intros t. unfold matches; simpl.
    by rewrite !andb_true_r.
Qed.

(** X10. The ['Unassigned'] filter returns exactly the tasks without an
    assignee (null or empty), never one that names a person. *)
Theorem filter_unassigned (ts : list Task) (t : Task) :
  t ∈ applyFilters toLowerCase ts (only_assignee (Some "Unassigned"))
  ↔ t ∈ ts ∧ (assignee t = None ∨ assignee t = Some "").
Proof.
  rewrite applyFilters_matches, !list_elem_of_In, List.filter_In.
  unfold matches, only_assignee, constraint, matches_assignee, truthy; simpl.
  destruct (assignee t) as [a|]; simpl.
  - destruct (String.eqb_spec a "") as [->|Ha]; simpl.
    + split; intros [? _]; split; auto.
    + split; [by intros [_ ?]|]. intros [_ [?|?]]; congruence.
  - split; intros [? _]; split; auto.
Qed.
End query_facts.

Lemma applyFilters_identity_witness :
  let ts := [sample_task "1" (Some "John") None high "Work" pending;
             sample_task "2" None None low "Work/Beta" completed] in
  applyFilters (λ s, s) ts (Tasks.mkFilterState None (Some "") None None "")
  = ts.
Proof.
  simpl. by apply (applyFilters_identity (λ s, s)).
Defined.

End useTasks_facts.

(** ** The entries of the assignee rollups *)

Lemma Map_set_set {V} key (v w : V) (m : list (string * V)) :
  Map_set key v (Map_set key w m) = Map_set key v m.
Proof.
  induction m as [|[k x] m IH]; simpl.
  - by rewrite decide_True.
  - destruct (decide (k = key)) as [->|Hne]; simpl.
    + by rewrite decide_True.
    + by rewrite decide_False, IH.
Qed.

(** Appending [x] to the list kept under [key] (the empty list when there is
    no entry yet) appends it to the union of the lists of the map. *)
Lemma concat_Map_set {V A} (f : V → list A) key v x (m : list (string * V)) :
  f v = from_option f [] (Map_get key m) ++ [x] →
  concat (f <$> Map_values (Map_set key v m))
  ≡ₚ concat (f <$> Map_values m) ++ [x].
Proof.
  unfold Map_values. induction m as [|[k y] m IH]; simpl; intros Hv.
  - by rewrite Hv.
  - destruct (decide (k = key)) as [->|Hne]; simpl.
    + simpl in Hv. rewrite Hv, <-!(assoc_L (++)). f_equiv.
      apply Permutation_app_comm.
    + rewrite <-(assoc_L (++)). f_equiv. by apply IH.
Qed.

Lemma priority_counts (l : list Types.Task) :
  length (List.filter (λ t, bool_decide (Types.priority t = Types.high)) l)
  + length (List.filter (λ t, bool_decide (Types.priority t = Types.medium)) l)
  + length (List.filter (λ t, bool_decide (Types.priority t = Types.low)) l)
  = length l.
Proof.
  induction l as [|t l IH]; simpl; [done|].
  destruct (Types.priority t); simpl; lia.
Qed.

Module Assignees_entries.
Import Assignees Assignees_facts.

(** One turn of the loop sets the entry of the task's assignee to the
    updated former entry, or to the updated fresh one. *)
Lemma stats_step_eq stats t :
  stats_step stats t
  = Map_set (assignee_name t)
      (incr_status (Types.status t)
         (incr_priority (Types.priority t)
            (push_task t
               (default (mkAssigneeStats (assignee_name t) [] 0 0 0 0 0)
                        (Map_get (assignee_name t) stats)))))
      stats.
Proof.
  unfold stats_step. destruct (Map_has (assignee_name t) stats) eqn:Hhas.
  - apply Map_has_true in Hhas as [stat Hget]. by rewrite Hget.
  - apply Map_has_false in Hhas. rewrite Map_get_set_eq, Hhas. simpl.
    apply Map_set_set.
Qed.

(** A property that the update establishes, from an entry that has it or
    from a fresh entry, holds of all entries after the loop. *)
Lemma fold_stats_step_Forall (P : AssigneeStats → Prop) :
  (∀ t s, P s ∨ s = mkAssigneeStats (assignee_name t) [] 0 0 0 0 0 →
     P (incr_status (Types.status t)
          (incr_priority (Types.priority t) (push_task t s)))) →
  ∀ ts stats,
    Forall (λ kv, P kv.2) stats →
    Forall (λ kv, P kv.2) (fold_left stats_step ts stats).
Proof.
  intros Hstep ts. induction ts as [|t ts IH]; intros stats Hall; [done|].
  simpl. apply IH. rewrite stats_step_eq. apply Forall_Map_set; [done|].
  simpl. apply Hstep.
  destruct (Map_get (assignee_name t) stats) as [stat|] eqn:Hget; simpl.
  - left. apply Map_get_Some in Hget.
    eapply Forall_forall in Hall; [|exact Hget]. done.
  - by right.
Qed.

Lemma assigneeStats_Forall (P : AssigneeStats → Prop) :
  (∀ t s, P s ∨ s = mkAssigneeStats (assignee_name t) [] 0 0 0 0 0 →
     P (incr_status (Types.status t)
          (incr_priority (Types.priority t) (push_task t s)))) →
  ∀ data, Forall P (assigneeStats data).
Proof.
  intros Hstep [ts|]; simpl; [|constructor].
  rewrite Array_sort_perm. unfold Map_values. apply Forall_fmap.
  by apply (fold_stats_step_Forall P Hstep ts []).
Qed.

Lemma priorities_ok_step t s :
  priorities_ok s →
  priorities_ok (incr_status (Types.status t)
                   (incr_priority (Types.priority t) (push_task t s))).
Proof.
  unfold priorities_ok, incr_status. intros (Hh & Hm & Hl).
  case_decide; destruct (Types.priority t) eqn:Hp; simpl;
    rewrite !List.filter_app, !length_app; simpl; rewrite Hp; simpl; lia.
Qed.

Lemma assigneeStats_tasks_nonempty data :
  Forall (λ s, tasks s ≠ []) (assigneeStats data).
Proof.
  apply (assigneeStats_Forall (λ s, tasks s ≠ [])).
  intros t s _. destruct (step_fields t s) as [_ ->].
  intros Heq. by apply app_eq_nil in Heq as [_ ?].
Qed.

Lemma assignee_name_nonempty t : assignee_name t ≠ "".
Proof.
  unfold assignee_name, or_else. destruct (Types.assignee t) as [a|]; [|done].
  destruct (String.eqb a "") eqn:Ha; [done|]. by apply String.eqb_neq.
Qed.

(** Every entry has the name of a task of its own list. *)
Lemma assigneeStats_name ts s :
  s ∈ assigneeStats (Some ts) →
  ∃ t, t ∈ ts ∧ assignee_name t = name s.
Proof.
  intros Hin.
  destruct (assigneeStats_entries ts) as (_ & Hall & _).
  pose proof (assigneeStats_tasks_nonempty (Some ts)) as Hne.
  eapply Forall_forall in Hall as [Ht _]; [|exact Hin].
  eapply Forall_forall in Hne; [|exact Hin].
  destruct (tasks s) as [|t l] eqn:Hts; [done|]. exists t.
  assert (t ∈ tasks_of (name s) ts) as Ht'
    by (rewrite <-Ht; apply list_elem_of_here).
  apply list_elem_of_In, List.filter_In in Ht' as [Ht1 Ht2].
  split; [by apply list_elem_of_In|by apply bool_decide_eq_true in Ht2].
Qed.

Lemma fold_stats_step_union ts stats :
  concat (tasks <$> Map_values (fold_left stats_step ts stats))
  ≡ₚ concat (tasks <$> Map_values stats) ++ ts.
Proof.
  revert stats. induction ts as [|t ts IH]; intros stats; simpl.
  - by rewrite app_nil_r.
  - rewrite IH, stats_step_eq, (cons_middle t), (assoc_L (++)).
    f_equiv. apply concat_Map_set.
    destruct (step_fields t
      (default (mkAssigneeStats (assignee_name t) [] 0 0 0 0 0)
               (Map_get (assignee_name t) stats))) as [_ ->].
    by destruct (Map_get (assignee_name t) stats).
Qed.

(** X13. The three priority counters of a rollup entry count the tasks of the
    entry that have that priority, so they add up to the number of tasks of
    the assignee. *)
Theorem rollup_priorities (data : option (list Types.Task)) :
  Forall
    (λ s,
       high s
       = length (List.filter
                   (λ t, bool_decide (Types.priority t = Types.high))
                   (tasks s))
       ∧ medium s
         = length (List.filter
                     (λ t, bool_decide (Types.priority t = Types.medium))
                     (tasks s))
       ∧ low s
         = length (List.filter
                     (λ t, bool_decide (Types.priority t = Types.low))
                     (tasks s))
       ∧ high s + medium s + low s = length (tasks s))
    (assigneeStats data).
Proof.
  eapply Forall_impl.
  - apply (assigneeStats_Forall priorities_ok).
    intros t s [Hs| ->]; [by apply priorities_ok_step|].
    by apply priorities_ok_step.
  - intros s (Hh & Hm & Hl). split; [done|]. split; [done|]. split; [done|].
    rewrite Hh, Hm, Hl. apply priority_counts.
Qed.

(** X14. The rollup entries partition the task list by assignee: the names are
    distinct and never empty, every entry holds, in the order of the input,
    exactly the tasks whose assignee (Unassigned when there is none) is its
    name and holds at least one, every task is in the entry of its assignee,
    and the lists of the entries together are a rearrangement of the
    input. *)
Theorem rollup_partition (ts : list Types.Task) :
  let rollups := assigneeStats (Some ts) in
  NoDup (name <$> rollups)
  ∧ (∀ s, s ∈ rollups →
       name s ≠ "" ∧ tasks s ≠ []
       ∧ tasks s
         = List.filter (λ t, bool_decide (assignee_name t = name s)) ts)
  ∧ (∀ t, t ∈ ts →
       ∃ s, s ∈ rollups ∧ name s = assignee_name t ∧ t ∈ tasks s)
  ∧ concat (tasks <$> rollups) ≡ₚ ts
  ∧ (rollups = [] ↔ ts = []).
Proof.
  intros rollups.
  destruct (assigneeStats_entries ts) as (Hnd & Hall & Hkeys).
  pose proof (assigneeStats_tasks_nonempty (Some ts)) as Hne.
  fold rollups in Hnd, Hall, Hkeys, Hne.
  assert (∀ t, t ∈ ts →
            ∃ s, s ∈ rollups ∧ name s = assignee_name t ∧ t ∈ tasks s)
    as Hcover.
  { intros t Hin.
    destruct (proj1 (list_elem_of_fmap _ _ _) (Hkeys t Hin))
      as (s & Hname & Hs).
    exists s. split; [done|]. split; [done|].
    eapply Forall_forall in Hall as [-> _]; [|exact Hs].
    apply list_elem_of_In, List.filter_In.
    split; [by apply list_elem_of_In|by apply bool_decide_eq_true]. }
  split; [done|]. split; [|split; [done|split]].
  - intros s Hs. split; [|split].
    + destruct (assigneeStats_name ts s Hs) as (t & _ & <-).
      apply assignee_name_nonempty.
    + by eapply Forall_forall in Hne.
    + by eapply Forall_forall in Hall as [-> _].
  - unfold rollups. simpl. rewrite Array_sort_perm.
    by rewrite (fold_stats_step_union ts []).
  - split.
    + intros Hnil. destruct ts as [|t ts']; [done|].
      destruct (Hcover t) as (s & Hs & _); [apply list_elem_of_here|].
      rewrite Hnil in Hs. by apply elem_of_nil in Hs.
    + by intros ->.
Qed.

End Assignees_entries.

(** ** The Topics and Assignees pages *)

Module Pages_facts.
Import Types.

Section pages.
Variable toLowerCase : string → string.

Lemma Topics_tasks_all mockTasks :
  useTasks.Topics_tasks toLowerCase mockTasks None = mockTasks.
Proof.
  unfold useTasks.Topics_tasks. simpl.
  rewrite useTasks_facts.applyFilters_matches. by apply filter_all.
Qed.

Lemma Assignees_tasks_all mockTasks :
  useTasks.Assignees_tasks toLowerCase mockTasks None = mockTasks.
Proof.
  unfold useTasks.Assignees_tasks. simpl.
  rewrite useTasks_facts.applyFilters_matches. by apply filter_all.
Qed.

(** Selecting the topic [topic] in the tree shows the tasks whose topic
    starts with it. *)
Lemma Topics_tasks_prefix mockTasks topic :
  useTasks.Topics_tasks toLowerCase mockTasks (useTasks.onTopicSelect topic)
  = List.filter (λ t, String.prefix topic (primary_topic t)) mockTasks.
Proof.
  unfold useTasks.onTopicSelect.
  destruct (String.eqb topic "") eqn:Htopic.
  - apply String.eqb_eq in Htopic as ->. rewrite Topics_tasks_all.
    symmetry. apply filter_all. intros t _. by destruct (primary_topic t).
  - unfold useTasks.Topics_tasks, truthy. rewrite Htopic. simpl.
    rewrite useTasks_facts.applyFilters_matches. apply List.filter_ext.
    intros t. unfold useTasks.matches, useTasks.constraint; simpl.
    rewrite Htopic. by rewrite !andb_true_r.
Qed.

Lemma passes_through_prefix path t :
  TopicTree.passes_through path t = true →
  String.prefix (join "/" path) (primary_topic t) = true.
Proof.
  unfold TopicTree.passes_through, TopicTree.topic_path.
  intros [k Hk]%bool_decide_eq_true.
  rewrite <-(join_split (primary_topic t)), Hk. apply join_prefix.
Qed.

(** X11. When the topic tree has been built, clicking one of its nodes
    shows the tasks whose topic starts, as a string, with the path of the
    node.  They include, in order, all the tasks that the badge of the node
    counts, so the list is never shorter than the badge says. *)
Theorem topic_selection (mockTasks : list Task) (tree : TopicNode)
    (path : list string) (n : TopicNode) :
  TopicTree.buildTopicTree (useTasks.Topics_tasks toLowerCase mockTasks None)
  = Some tree →
  path ≠ [] →
  TopicTree.node_at path tree = Some n →
  let shown :=
    useTasks.Topics_tasks toLowerCase mockTasks
      (useTasks.onTopicSelect (fullPath n)) in
  (∀ t, t ∈ shown
        ↔ t ∈ mockTasks
          ∧ String.prefix (join "/" path) (primary_topic t) = true)
  ∧ List.filter (TopicTree.passes_through path) mockTasks `sublist_of` shown
  ∧ taskCount n ≤ length shown.
Proof.
  intros Htree Hpath Hn shown. rewrite Topics_tasks_all in Htree.
  apply TopicTree_facts.buildTopicTree_own_eq in Htree as ->.
  pose proof (TopicTree_nodes.buildTopicTree_subtree_ok mockTasks path Hpath)
    as Hok.
  rewrite Hn in Hok. destruct Hok as (Hc & _ & _ & Hf & _). simpl in Hf.
  assert (List.filter (TopicTree.passes_through path) mockTasks
          `sublist_of` shown) as Hsub.
  { unfold shown. rewrite Topics_tasks_prefix, Hf.
    apply filter_sublist_impl. intros t _. apply passes_through_prefix. }
  split; [|split; [done|]].
  - intros t. unfold shown. rewrite Topics_tasks_prefix, Hf.
    rewrite !list_elem_of_In. apply List.filter_In.
  - rewrite Hc. by apply sublist_length.
Qed.

(** X12. Clicking an entry of the assignee list shows the tasks of that entry,
    except those whose assignee is the literal text Unassigned; for an
    entry of another name it shows exactly the tasks of the entry. *)
Theorem assignee_selection (mockTasks : list Task)
    (s : Assignees.AssigneeStats) :
  s ∈ Assignees.assigneeStats
        (Some (useTasks.Assignees_tasks toLowerCase mockTasks None)) →
  let shown :=
    useTasks.Assignees_tasks toLowerCase mockTasks
      (Some (Assignees.name s)) in
  shown
  = List.filter (λ t, negb (bool_decide (assignee t = Some "Unassigned")))
      (Assignees.tasks s)
  ∧ (Assignees.name s ≠ "Unassigned" → shown = Assignees.tasks s)
  ∧ length shown ≤ length (Assignees.tasks s).
Proof.
  intros Hs shown. rewrite Assignees_tasks_all in Hs.
  destruct (Assignees_entries.assigneeStats_name _ _ Hs) as (t0 & _ & Hname).
  pose proof (Assignees_entries.assignee_name_nonempty t0) as Hne.
  rewrite Hname in Hne. apply String.eqb_neq in Hne.
  destruct (Assignees_facts.assigneeStats_entries mockTasks) as (_ & Hall & _).
  eapply Forall_forall in Hall as [Htasks _]; [|exact Hs].
  assert (shown
          = List.filter
              (λ t, negb (bool_decide (assignee t = Some "Unassigned")))
              (Assignees.tasks s)) as Hshown.
  { unfold shown, useTasks.Assignees_tasks, truthy. rewrite Hne. simpl.
    rewrite useTasks_facts.applyFilters_matches, Htasks.
    unfold Assignees.tasks_of. rewrite filter_filter_and.
    apply List.filter_ext. intros t.
    unfold useTasks.matches, useTasks.constraint; simpl. rewrite Hne.
    rewrite !andb_true_r.
    unfold useTasks.matches_assignee, Assignees.assignee_name, or_else, truthy.
    apply String.eqb_neq in Hne.
    destruct (decide (Assignees.name s = "Unassigned")) as [Hu|Hu].
    - rewrite Hu. destruct (assignee t) as [a|]; [|done].
      destruct (String.eqb_spec a "") as [->|Ha]; simpl; [done|].
      destruct (decide (a = "Unassigned")) as [->|Hau].
      + by rewrite !bool_decide_true.
      + by rewrite (bool_decide_false (a = _)).
    - destruct (assignee t) as [a|].
      + destruct (String.eqb_spec a "") as [->|Ha]; simpl.
        * rewrite !bool_decide_false; [done|congruence..].
        * destruct (decide (a = Assignees.name s)) as [->|Han].
          -- rewrite !bool_decide_true by done.
             rewrite bool_decide_false; [done|congruence].
          -- rewrite (bool_decide_false (Some a = _)),
               (bool_decide_false (a = _)); [done|congruence..].
      + rewrite !bool_decide_false; [done|congruence..]. }
  split; [done|]. split.
  - intros Hu. rewrite Hshown. apply filter_all. intros t Ht.
    rewrite Htasks in Ht.
    apply list_elem_of_In, List.filter_In in Ht as [_ Ht].
    apply bool_decide_eq_true in Ht.
    apply negb_true_iff, bool_decide_eq_false. intros Ha. apply Hu.
    rewrite <-Ht. unfold Assignees.assignee_name. by rewrite Ha.
  - rewrite Hshown. apply sublist_length, filter_sublist_bool.
Qed.
End pages.

Lemma topic_selection_witness :
  let mockTasks := [sample_task "1" None None high "Work/Alpha" pending;
                    sample_task "2" None None low "Workshop" completed] in
  ∃ tree n,
    TopicTree.buildTopicTree (useTasks.Topics_tasks (λ s, s) mockTasks None)
    = Some tree
    ∧ TopicTree.node_at ["Work"] tree = Some n
    ∧ taskCount n = 1
    ∧ taskCount n
      ≤ length (useTasks.Topics_tasks (λ s, s) mockTasks
                  (useTasks.onTopicSelect (fullPath n)))
    ∧ length (useTasks.Topics_tasks (λ s, s) mockTasks
                (useTasks.onTopicSelect (fullPath n))) = 2.
Proof.
  intros mockTasks.
  eassert (TopicTree.buildTopicTree
             (useTasks.Topics_tasks (λ s, s) mockTasks None) = Some _)
    as Htree by (vm_compute; reflexivity).
  eassert (TopicTree.buildTopicTree
             (useTasks.Topics_tasks (λ s, s) mockTasks None)
           ≫= TopicTree.node_at ["Work"] = Some _)
    as Hn by (vm_compute; reflexivity).
  rewrite Htree in Hn. simpl in Hn.
  eexists _, _. split; [exact Htree|]. split; [exact Hn|].
  split; [reflexivity|]. split; [|vm_compute; reflexivity].
  apply (topic_selection (λ s, s) mockTasks _ ["Work"] _ Htree
           ltac:(discriminate) Hn).
Defined.

Lemma assignee_selection_witness :
  let mockTasks := [sample_task "1" (Some "John") None high "Work" pending;
                    sample_task "2" None None low "Work" completed;
                    sample_task "3" (Some "John") None low "Home" pending] in
  ∃ s,
    s ∈ Assignees.assigneeStats
          (Some (useTasks.Assignees_tasks (λ s, s) mockTasks None))
    ∧ Assignees.name s = "John"
    ∧ length (useTasks.Assignees_tasks (λ s, s) mockTasks
                (Some (Assignees.name s)))
      ≤ length (Assignees.tasks s).
Proof.
  eexists. split; [vm_compute; apply list_elem_of_here|].
  split; [reflexivity|].
  apply (assignee_selection (λ s, s)
    [sample_task "1" (Some "John") None high "Work" pending;
     sample_task "2" None None low "Work" completed;
     sample_task "3" (Some "John") None low "Home" pending]).
  vm_compute. apply list_elem_of_here.
Defined.

End Pages_facts.

(** ** More on sorting and grouping *)

(** Elements that the comparator never moves past each other keep their
    order: the sort is stable. *)
Lemma Array_sort_stable {A} (compareFn : A → A → Z) (P : A → bool) l :
  (∀ x y, (0 < compareFn x y)%Z → P x = true → P y = false) →
  List.filter P (Array_sort compareFn l) = List.filter P l.
Proof.
  intros Hskip. induction l as [|x l IH]; simpl; [done|].
  rewrite sort_insert_filter by (intros y; apply Hskip).
  simpl. by rewrite IH.
Qed.

Lemma StronglySorted_filter {A} (R : A → A → Prop) (P : A → bool) l :
  StronglySorted R l → StronglySorted R (List.filter P l).
Proof.
  induction 1 as [|x l Hs IH Hx]; simpl; [constructor|].
  destruct (P x); [|done]. constructor; [done|].
  apply Forall_forall. intros y Hy.
  apply list_elem_of_In, List.filter_In in Hy as [Hy _].
  apply list_elem_of_In in Hy. by eapply Forall_forall in Hx.
Qed.

Lemma Map_set_keys {V} key (v : V) (m : list (string * V)) :
  (Map_set key v m).*1 = if decide (key ∈ m.*1) then m.*1 else m.*1 ++ [key].
Proof.
  induction m as [|[k x] m IH]; [done|].
  change (Map_set key v ((k, x) :: m))
    with (if decide (k = key) then (k, v) :: m
          else (k, x) :: Map_set key v m).
  destruct (decide (k = key)) as [->|Hne]; rewrite !fmap_cons.
  - clear IH. case_decide as Hin; [done|].
    exfalso. apply Hin, list_elem_of_here.
  - rewrite IH. clear IH. change ((k, x).1) with k.
    destruct (decide (key ∈ m.*1)) as [Hin|Hin]; case_decide as Hin'.
    + done.
    + exfalso. by apply Hin', list_elem_of_further.
    + apply elem_of_cons in Hin' as [?|?]; [congruence|done].
    + done.
Qed.

Lemma first_seen_snoc keys k :
  TaskList.first_seen (keys ++ [k])
  = if decide (k ∈ TaskList.first_seen keys) then TaskList.first_seen keys
    else TaskList.first_seen keys ++ [k].
Proof. unfold TaskList.first_seen. by rewrite fold_left_app. Qed.

Lemma first_seen_elem keys x : x ∈ TaskList.first_seen keys ↔ x ∈ keys.
Proof.
  induction keys as [|k keys IH] using rev_ind.
  - done.
  - rewrite first_seen_snoc, elem_of_app, list_elem_of_singleton.
    destruct (decide (k ∈ TaskList.first_seen keys)) as [Hin|Hin].
    + rewrite IH. split; [by left|]. intros [?| ->]; [done|by apply IH].
    + by rewrite elem_of_app, list_elem_of_singleton, IH.
Qed.

Module TaskList_more.
Import Types TaskList TaskList_facts.

(** One turn of the grouping loop appends the task to the bucket of its
    label, an empty one when the label is new. *)
Lemma group_step_eq groupBy groups t :
  group_step groupBy groups t
  = Map_set (group_key groupBy t)
      (default [] (Map_get (group_key groupBy t) groups) ++ [t]) groups.
Proof.
  unfold group_step.
  destruct (Map_has (group_key groupBy t) groups) eqn:Hhas.
  - apply Map_has_true in Hhas as [bucket Hget]. by rewrite Hget.
  - apply Map_has_false in Hhas. rewrite Map_get_set_eq, Hhas. simpl.
    apply Map_set_set.
Qed.

Lemma filter_key_snoc groupBy k seen t :
  List.filter (λ t, bool_decide (group_key groupBy t = k)) (seen ++ [t])
  = List.filter (λ t, bool_decide (group_key groupBy t = k)) seen
    ++ (if decide (group_key groupBy t = k) then [t] else []).
Proof.
  rewrite List.filter_app. simpl.
  case_decide; [by rewrite bool_decide_true|by rewrite bool_decide_false].
Qed.

Lemma group_step_inv groupBy seen groups t :
  groups_inv groupBy seen groups →
  groups_inv groupBy (seen ++ [t]) (group_step groupBy groups t).
Proof.
  intros (Hnd & Hall & Hkeys). rewrite group_step_eq.
  assert (default [] (Map_get (group_key groupBy t) groups)
          = List.filter
              (λ t', bool_decide (group_key groupBy t' = group_key groupBy t))
              seen) as Hbucket.
  { destruct (Map_get (group_key groupBy t) groups) as [bucket|] eqn:Hget.
    - apply Map_get_Some in Hget.
      eapply Forall_forall in Hall; [|exact Hget]. done.
    - simpl. symmetry. apply filter_none. intros t' Hin.
      apply bool_decide_eq_false. intros Heq.
      apply Map_get_None in Hget. apply Hget. rewrite Hkeys.
      apply first_seen_elem. rewrite <-Heq. by apply list_elem_of_fmap_2. }
  split; [|split].
  - by apply Map_set_keys_NoDup.
  - eapply Forall_Map_set_update; [exact Hall| | |done].
    + simpl. rewrite filter_key_snoc, decide_True by done. by rewrite Hbucket.
    + intros k x _ Hne Hx. simpl in *.
      rewrite filter_key_snoc, decide_False by done. by rewrite app_nil_r.
  - rewrite Map_set_keys, fmap_app.
    change (group_key groupBy <$> [t]) with [group_key groupBy t].
    by rewrite first_seen_snoc, Hkeys.
Qed.

Lemma fold_group_step_inv groupBy ts seen groups :
  groups_inv groupBy seen groups →
  groups_inv groupBy (seen ++ ts) (fold_left (group_step groupBy) ts groups).
Proof.
  revert seen groups. induction ts as [|t ts IH]; intros seen groups Hinv.
  - by rewrite app_nil_r.
  - simpl. rewrite (cons_middle t), (assoc_L (++)).
    by apply IH, group_step_inv.
Qed.

Lemma groupTasks_inv ts groupBy :
  groupBy ≠ GroupNone → groups_inv groupBy ts (groupTasks ts groupBy).
Proof.
  intros Hg.
  assert (groups_inv groupBy ts (fold_left (group_step groupBy) ts [])) as H.
  { apply (fold_group_step_inv groupBy ts [] []).
    split; [constructor|]. split; [constructor|done]. }
  by destruct groupBy.
Qed.

(** X15. Under a grouping key the bucket labels are distinct and stand in the
    order in which the tasks first show them; every bucket holds, in input
    order, exactly the tasks of its label and is never empty.  Without
    grouping there is the one bucket All Tasks with the whole list, also
    when the list is empty. *)
Theorem grouping_buckets (ts : list Task) (groupBy : GroupBy) :
  let groups := groupTasks ts groupBy in
  (groupBy = GroupNone → groups = [("All Tasks", ts)])
  ∧ (groupBy ≠ GroupNone →
       NoDup groups.*1
       ∧ groups.*1 = first_seen (group_key groupBy <$> ts)
       ∧ (∀ label bucket, (label, bucket) ∈ groups →
            bucket ≠ []
            ∧ bucket
              = List.filter
                  (λ t, bool_decide (group_key groupBy t = label)) ts)
       ∧ (groups = [] ↔ ts = [])).
Proof.
  intros groups. split; [by intros ->|]. intros Hg.
  destruct (groupTasks_inv ts groupBy Hg) as (Hnd & Hall & Hkeys).
  fold groups in Hnd, Hall, Hkeys.
  split; [done|]. split; [done|]. split.
  - intros label bucket Hin.
    eapply Forall_forall in Hall; [|exact Hin]. simpl in Hall.
    split; [|done].
    assert (label ∈ groups.*1) as Hlabel
      by (apply list_elem_of_fmap; by exists (label, bucket)).
    rewrite Hkeys, first_seen_elem in Hlabel.
    apply list_elem_of_fmap in Hlabel as (t & Hlabel & Ht).
    rewrite Hall. intros Hnil.
    assert (t ∈ List.filter
                  (λ t, bool_decide (group_key groupBy t = label)) ts) as Hin'.
    { apply list_elem_of_In, List.filter_In.
      split; [by apply list_elem_of_In|by apply bool_decide_eq_true]. }
    rewrite Hnil in Hin'. by apply elem_of_nil in Hin'.
  - split.
    + intros Hnil. rewrite Hnil in Hkeys. destruct ts as [|t ts']; [done|].
      assert (group_key groupBy t ∈ first_seen (group_key groupBy <$> t :: ts'))
        as Hin by (apply first_seen_elem, list_elem_of_here).
      rewrite <-Hkeys in Hin. by apply elem_of_nil in Hin.
    + intros ->. unfold groups. by destruct groupBy.
Qed.

(** X16. Grouping by priority gives at most the three buckets High, Medium and
    Low, grouping by status at most Pending, In Progress and Completed; no
    task list makes another label, and under the assignee key no label is
    empty. *)
Theorem group_labels (ts : list Task) :
  (Forall (λ label, label ∈ priority_labels) (groupTasks ts GroupPriority).*1
   ∧ length (groupTasks ts GroupPriority) ≤ 3)
  ∧ (Forall (λ label, label ∈ status_labels) (groupTasks ts GroupStatus).*1
     ∧ length (groupTasks ts GroupStatus) ≤ 3)
  ∧ Forall (λ label, label ≠ "") (groupTasks ts GroupAssignee).*1.
Proof.
  assert (∀ groupBy (labels : list string),
            groupBy ≠ GroupNone →
            (∀ t, group_key groupBy t ∈ labels) →
            Forall (λ label, label ∈ labels) (groupTasks ts groupBy).*1
            ∧ length (groupTasks ts groupBy) ≤ length labels) as Hbound.
  { intros groupBy labels Hg Hlabels.
    destruct (groupTasks_inv ts groupBy Hg) as (Hnd & _ & Hkeys).
    assert (Forall (λ label, label ∈ labels) (groupTasks ts groupBy).*1)
      as Hall.
    { apply Forall_forall. intros label Hin.
      rewrite Hkeys, first_seen_elem in Hin.
      apply list_elem_of_fmap in Hin as (t & -> & _).
      apply Hlabels. }
    split; [done|].
    rewrite <-(length_fmap fst). apply submseteq_length.
    apply NoDup_submseteq; [done|]. intros label Hin.
    by eapply Forall_forall in Hall. }
  split; [|split].
  - apply (Hbound GroupPriority priority_labels); [done|].
    intros t. simpl. unfold priority_labels.
    destruct (priority t); vm_compute;
      repeat first [apply list_elem_of_here|apply list_elem_of_further].
  - apply (Hbound GroupStatus status_labels); [done|].
    intros t. simpl. unfold status_labels.
    destruct (status t); vm_compute;
      repeat first [apply list_elem_of_here|apply list_elem_of_further].
  - destruct (groupTasks_inv ts GroupAssignee) as (_ & _ & Hkeys); [done|].
    apply Forall_forall. intros label Hin.
    rewrite Hkeys, first_seen_elem in Hin.
    apply list_elem_of_fmap in Hin as (t & -> & _).
    simpl. unfold or_else. destruct (assignee t) as [a|]; [|done].
    destruct (String.eqb a "") eqn:Ha; [done|]. by apply String.eqb_neq.
Qed.

Section sorting.
Variable localeCompare : string → string → Z.

Lemma sort_le_trans sortBy :
  sortBy ≠ SortTopic → Transitive (sort_le localeCompare sortBy).
Proof.
  intros Hs. destruct sortBy; unfold sort_le; try done.
  - apply deadline_le_trans.
  - apply priority_le_trans.
  - intros a b c. unfold created_ge. lia.
  - intros a b c. unfold updated_ge. lia.
Qed.

Lemma compareTasks_decides sortBy a b :
  sortBy ≠ SortTopic →
  decides (compareTasks localeCompare sortBy) (sort_le localeCompare sortBy)
    a b.
Proof.
  intros Hs. destruct sortBy; try done.
  - apply compare_deadline_decides.
  - apply compare_priority_decides.
  - unfold decides, sort_le, created_ge, compareTasks. lia.
  - unfold decides, sort_le, updated_ge, compareTasks. lia.
Qed.

Lemma sortTasks_sorted ts sortBy :
  sortBy ≠ SortTopic →
  StronglySorted (sort_le localeCompare sortBy)
    (sortTasks localeCompare ts sortBy).
Proof.
  intros Hs. pose proof (sort_le_trans sortBy Hs) as Htrans.
  apply Array_sort_sorted; [done|].
  apply ForallOrdPairs_all. intros a b. by apply compareTasks_decides.
Qed.

Lemma sort_le_compare sortBy a b :
  sort_le localeCompare sortBy a b →
  (compareTasks localeCompare sortBy a b ≤ 0)%Z.
Proof.
  destruct sortBy; simpl; try done.
  - unfold deadline_le, Date_getTime.
    destruct (deadline a), (deadline b); try done; lia.
  - unfold priority_le. lia.
  - unfold created_ge. lia.
  - unfold updated_ge. lia.
Qed.

(** X17. Sorting by creation or by update time rearranges the tasks with the
    newest first: a task never stands before one that was created (updated)
    later. *)
Theorem sort_newest_first (ts : list Task) :
  let byCreated := sortTasks localeCompare ts SortCreated in
  let byUpdated := sortTasks localeCompare ts SortUpdated in
  byCreated ≡ₚ ts
  ∧ byUpdated ≡ₚ ts
  ∧ (∀ i j a b, byCreated !! i = Some a → byCreated !! j = Some b →
       i < j → (created_at b ≤ created_at a)%Z)
  ∧ (∀ i j a b, byUpdated !! i = Some a → byUpdated !! j = Some b →
       i < j → (updated_at b ≤ updated_at a)%Z).
Proof.
  intros byCreated byUpdated.
  split; [apply sortTasks_perm|]. split; [apply sortTasks_perm|]. split.
  - intros i j a b Hi Hj Hlt.
    pose proof (sortTasks_sorted ts SortCreated) as Hs.
    by apply (StronglySorted_lookup_lt _ _ _ _ _ _ (Hs ltac:(done)) Hlt Hi Hj).
  - intros i j a b Hi Hj Hlt.
    pose proof (sortTasks_sorted ts SortUpdated) as Hs.
    by apply (StronglySorted_lookup_lt _ _ _ _ _ _ (Hs ltac:(done)) Hlt Hi Hj).
Qed.

(** X18. The sort is stable under the deadline, priority, creation and update
    keys: the tasks that the comparator finds equal to a given task come out
    in the order in which they went in. *)
Theorem sort_stable (ts : list Task) (sortBy : SortBy) (t0 : Task) :
  sortBy ≠ SortTopic →
  List.filter (sort_tie localeCompare sortBy t0)
    (sortTasks localeCompare ts sortBy)
  = List.filter (sort_tie localeCompare sortBy t0) ts.
Proof.
  intros Hs. apply Array_sort_stable. intros x y.
  unfold sort_tie. rewrite bool_decide_eq_true, bool_decide_eq_false.
  destruct sortBy; simpl; try done; try lia.
  unfold Date_getTime.
  destruct (deadline t0), (deadline x), (deadline y); try done; lia.
Qed.

(** X19. Sorting twice by the same key (deadline, priority, creation or update)
    gives what sorting once gives. *)
Theorem sort_idempotent (ts : list Task) (sortBy : SortBy) :
  sortBy ≠ SortTopic →
  sortTasks localeCompare (sortTasks localeCompare ts sortBy) sortBy
  = sortTasks localeCompare ts sortBy.
Proof.
  intros Hs. apply Array_sort_fixed.
  eapply Sorted_weaken; [|by apply StronglySorted_Sorted, sortTasks_sorted].
  apply sort_le_compare.
Qed.

(** X20. When the collation orders the topics consistently (a pair it puts one
    way round it does not put the other way round, and it is transitive),
    sorting by topic rearranges the tasks in ascending order of topic, and
    sorting again changes nothing. *)
Theorem topic_sort (ts : list Task) :
  (∀ a b, (0 < localeCompare a b)%Z → (localeCompare b a ≤ 0)%Z) →
  (∀ a b c, (localeCompare a b ≤ 0)%Z → (localeCompare b c ≤ 0)%Z →
     (localeCompare a c ≤ 0)%Z) →
  let sorted := sortTasks localeCompare ts SortTopic in
  sorted ≡ₚ ts
  ∧ (∀ i j a b, sorted !! i = Some a → sorted !! j = Some b → i < j →
       (localeCompare (primary_topic a) (primary_topic b) ≤ 0)%Z)
  ∧ sortTasks localeCompare sorted SortTopic = sorted.
Proof.
  intros Hanti Htrans sorted.
  assert (Transitive (sort_le localeCompare SortTopic)) as Htr
    by (intros a b c; apply Htrans).
  assert (StronglySorted (sort_le localeCompare SortTopic) sorted) as Hs.
  { apply Array_sort_sorted; [done|]. apply ForallOrdPairs_all.
    intros a b. split; simpl; [done|apply Hanti]. }
  split; [apply sortTasks_perm|]. split.
  - intros i j a b Hi Hj Hlt.
    apply (StronglySorted_lookup_lt _ _ _ _ _ _ Hs Hlt Hi Hj).
  - apply Array_sort_fixed. by apply StronglySorted_Sorted.
Qed.

(** X21. The task list sorts first and groups afterwards, so every bucket on
    the screen is in the order of the sort key, and the buckets together
    hold the tasks that came in. *)
Theorem sorted_groups (ts : list Task) (groupBy : GroupBy) (sortBy : SortBy) :
  sortBy ≠ SortTopic →
  let groups := TaskList_groups localeCompare ts groupBy sortBy in
  Forall (λ kv, StronglySorted (sort_le localeCompare sortBy) kv.2) groups
  ∧ bucket_union groups ≡ₚ ts.
Proof.
  intros Hs groups. unfold groups, TaskList_groups.
  pose proof (sortTasks_sorted ts sortBy Hs) as Hsorted.
  split.
  - assert (groupBy = GroupNone ∨ groupBy ≠ GroupNone) as [->|Hg]
      by (destruct groupBy; (by left) || (by right)).
    + by repeat constructor.
    + destruct (groupTasks_inv (sortTasks localeCompare ts sortBy) groupBy Hg)
        as (_ & Hall & _).
      eapply Forall_impl; [exact Hall|]. intros [k bucket] Hb. simpl in *.
      rewrite Hb. by apply StronglySorted_filter.
  - rewrite <-(sortTasks_perm localeCompare ts sortBy) at 2.
    destruct groupBy; try apply (fold_group_step_union _ _ []).
    unfold groupTasks, bucket_union; simpl. by rewrite app_nil_r.
Qed.
End sorting.

Lemma sort_stable_witness :
  let a := sample_task "a" None (Some 3%Z) high "Work" pending in
  let b := sample_task "b" None (Some 1%Z) medium "Work" pending in
  let c := sample_task "c" None (Some 3%Z) low "Home" completed in
  List.filter (sort_tie (λ _ _, 0%Z) SortDeadline a)
    (sortTasks (λ _ _, 0%Z) [a; b; c] SortDeadline)
  = List.filter (sort_tie (λ _ _, 0%Z) SortDeadline a) [a; b; c].
Proof.
  intros a b c. by apply (sort_stable (λ _ _, 0%Z)).
Defined.

Lemma sort_idempotent_witness :
  let a := sample_task "a" None (Some 3%Z) high "Work" pending in
  let b := sample_task "b" None None medium "Work" pending in
  let c := sample_task "c" None (Some 1%Z) low "Home" completed in
  sortTasks (λ _ _, 0%Z) (sortTasks (λ _ _, 0%Z) [a; b; c] SortDeadline)
    SortDeadline
  = sortTasks (λ _ _, 0%Z) [a; b; c] SortDeadline.
Proof.
  intros a b c. by apply (sort_idempotent (λ _ _, 0%Z)).
Defined.

Lemma topic_sort_witness :
  let byLength a b := (Z.of_nat (String.length a) - Z.of_nat (String.length b))%Z in
  let a := sample_task "a" None None high "Work/Alpha" pending in
  let b := sample_task "b" None None medium "Home" pending in
  sortTasks byLength (sortTasks byLength [a; b] SortTopic) SortTopic
  = sortTasks byLength [a; b] SortTopic.
Proof.
  intros byLength a b.
  apply (topic_sort byLength [a; b]); unfold byLength; intros; lia.
Defined.

Lemma sorted_groups_witness :
  let a := sample_task "a" None None low "Work" pending in
  let b := sample_task "b" None None high "Home" pending in
  let c := sample_task "c" None None high "Work" completed in
  TaskList_groups (λ _ _, 0%Z) [a; b; c] GroupTopic SortPriority
  = [("Home", [b]); ("Work", [c; a])]
  ∧ Forall (λ kv, StronglySorted (sort_le (λ _ _, 0%Z) SortPriority) kv.2)
      (TaskList_groups (λ _ _, 0%Z) [a; b; c] GroupTopic SortPriority).
Proof.
  split; [reflexivity|].
  by apply (sorted_groups (λ _ _, 0%Z)).
Defined.

End TaskList_more.

(** ** The deadline windows of the dashboard and of the task card *)

Lemma filter_disjoint_length {A} (p q : A → bool) (l : list A) :
  (∀ x, p x = true → q x = false) →
  length (List.filter p l) + length (List.filter q l) ≤ length l.
Proof.
  intros Hpq. induction l as [|x l IH]; simpl; [done|].
  destruct (p x) eqn:Hp.
  - rewrite (Hpq x Hp). simpl. lia.
  - destruct (q x); simpl; lia.
Qed.

Module Dashboard_windows.
Import Types Dashboard Dashboard_facts.
Local Open Scope Z_scope.

(** Overdue means due on a day before the current one. *)
Lemma is_overdue_iff now t d :
  deadline t = Some d →
  is_overdue now t = true ↔ d < now `div` MS_PER_DAY.
Proof.
  intros Hd. unfold is_overdue, isPast, isToday, startOfDay, parseISO.
  rewrite Hd, andb_true_iff, negb_true_iff, bool_decide_eq_true,
    bool_decide_eq_false.
  pose proof (Z.div_mod now MS_PER_DAY) as Hdm.
  pose proof (Z.mod_pos_bound now MS_PER_DAY) as Hb.
  unfold MS_PER_DAY in *. rewrite Z.div_mul by done. lia.
Qed.

(** Due soon means due on one of the next seven days, or on the current day
    when the clock reads midnight. *)
Lemma is_dueSoon_iff now t d :
  deadline t = Some d →
  is_dueSoon now t = true
  ↔ now `div` MS_PER_DAY < d ≤ now `div` MS_PER_DAY + 7
    ∨ (d = now `div` MS_PER_DAY ∧ now `mod` MS_PER_DAY = 0).
Proof.
  intros Hd. unfold is_dueSoon, isWithinInterval, addDays, parseISO.
  rewrite Hd, bool_decide_eq_true.
  pose proof (Z.div_mod now MS_PER_DAY) as Hdm.
  pose proof (Z.mod_pos_bound now MS_PER_DAY) as Hb.
  unfold MS_PER_DAY in *. lia.
Qed.

Lemma isTomorrow_iff now d :
  TaskCard.isTomorrow now (parseISO d) = true ↔ d = now `div` MS_PER_DAY + 1.
Proof.
  unfold TaskCard.isTomorrow, addDays. rewrite startOfDay_parseISO.
  unfold startOfDay, parseISO. rewrite bool_decide_eq_true.
  rewrite Z.div_add by done. unfold MS_PER_DAY. lia.
Qed.

Lemma isToday_iff now d :
  isToday now (parseISO d) = true ↔ d = now `div` MS_PER_DAY.
Proof.
  unfold isToday. rewrite startOfDay_parseISO.
  unfold startOfDay, parseISO. rewrite bool_decide_eq_true.
  unfold MS_PER_DAY. lia.
Qed.

(** X22. In calendar days: a task is overdue exactly when its deadline is a
    day before the current one, and due soon exactly when its deadline is
    one of the seven days after the current one, or the current day at the
    stroke of midnight.  A task without deadline is neither. *)
Theorem deadline_windows (now : Z) (t : Task) :
  let today := now `div` MS_PER_DAY in
  match deadline t with
  | Some d =>
      (is_overdue now t = true ↔ d < today)
      ∧ (is_dueSoon now t = true
         ↔ today < d ≤ today + 7 ∨ (d = today ∧ now `mod` MS_PER_DAY = 0))
  | None => is_overdue now t = false ∧ is_dueSoon now t = false
  end.
Proof.
  intros today. destruct (deadline t) as [d|] eqn:Hd.
  - split; [by apply is_overdue_iff|by apply is_dueSoon_iff].
  - unfold is_overdue, is_dueSoon. by rewrite Hd.
Qed.

(** X23. There is no dashboard data exactly when the statistics or the tasks
    are missing.  Otherwise the two deadline counters are the sizes of the
    overdue and the due-soon set, which never share a task and never hold a
    completed one: together they are at most the number of tasks that are
    not completed. *)
Theorem dashboard_counters (statsData : option TaskStatsResponse)
    (tasksData : option (list Task)) (now : Z) :
  (dashboardStats statsData tasksData now = None
   ↔ statsData = None ∨ tasksData = None)
  ∧ match dashboardStats statsData tasksData now with
    | Some stats =>
        ∃ sd ts, statsData = Some sd ∧ tasksData = Some ts
          ∧ total stats = total_tasks sd
          ∧ overdue stats = length (overdueTasks now ts)
          ∧ dueSoon stats = length (dueSoonTasks now ts)
          ∧ (overdue stats + dueSoon stats ≤ length (activeTasks ts))%nat
          ∧ (length (activeTasks ts) ≤ length ts)%nat
          ∧ (∀ t, t ∈ overdueTasks now ts → t ∉ dueSoonTasks now ts)
          ∧ (∀ t, t ∈ overdueTasks now ts ∨ t ∈ dueSoonTasks now ts →
               t ∈ ts ∧ status t ≠ completed ∧ deadline t ≠ None)
    | None => statsData = None ∨ tasksData = None
    end.
Proof.
  split.
  { destruct statsData as [sd|], tasksData as [ts|]; simpl; split;
      try done; auto. by intros [?|?]. }
  destruct statsData as [sd|], tasksData as [ts|]; simpl;
    [|by right|by left|by left].
  exists sd, ts. do 5 (split; [done|]). split; [|split; [|split]].
  - apply filter_disjoint_length, overdue_dueSoon_disjoint.
  - apply sublist_length, filter_sublist_bool.
  - unfold overdueTasks, dueSoonTasks. intros t.
    rewrite !elem_of_filter_bool. intros [_ Ho] [_ Hs].
    apply overdue_dueSoon_disjoint in Ho. congruence.
  - unfold overdueTasks, dueSoonTasks, activeTasks. intros t.
    rewrite !elem_of_filter_bool, negb_true_iff, bool_decide_eq_false.
    unfold is_overdue, is_dueSoon.
    intros [[[Hin Hst] Hd]|[[Hin Hst] Hd]];
      (split; [done|split; [done|]]); by destruct (deadline t).
Qed.

(** X24. The urgent list of the dashboard has at most five tasks, in the order
    of the task list; none of them is completed and each is of high
    priority, due soon or overdue.  When it has fewer than five, no such
    task is left out. *)
Theorem urgent_tasks (now : Z) (ts : list Task) :
  let urgent := urgentTasks now ts in
  (length urgent ≤ 5)%nat
  ∧ urgent `sublist_of` ts
  ∧ (∀ t, t ∈ urgent →
       status t ≠ completed
       ∧ (priority t = high ∨ t ∈ dueSoonTasks now ts
          ∨ t ∈ overdueTasks now ts))
  ∧ ((length urgent < 5)%nat →
       ∀ t, t ∈ ts → status t ≠ completed →
         priority t = high ∨ is_dueSoon now t = true
         ∨ is_overdue now t = true →
         t ∈ urgent).
Proof.
  intros urgent. unfold urgent, urgentTasks.
  split; [rewrite length_take; lia|]. split; [|split].
  - etrans; [apply sublist_take|]. etrans; apply filter_sublist_bool.
  - intros t Hin. apply elem_of_take in Hin as (i & Hin & _).
    apply list_elem_of_lookup_2 in Hin.
    apply elem_of_filter_bool in Hin as [Hact Hp].
    pose proof Hact as Hact'. unfold activeTasks in Hact'.
    apply elem_of_filter_bool in Hact' as [_ Hst].
    apply negb_true_iff, bool_decide_eq_false in Hst. split; [done|].
    unfold dueSoonTasks, overdueTasks. rewrite !elem_of_filter_bool.
    apply orb_true_iff in Hp as [Hp|Hp]; [|by right; right].
    apply orb_true_iff in Hp as [Hp|Hp]; [|by right; left].
    left. by apply bool_decide_eq_true in Hp.
  - intros Hlen t Hin Hst Hp.
    rewrite take_ge by (rewrite length_take in Hlen; lia).
    apply elem_of_filter_bool. split.
    + unfold activeTasks. apply elem_of_filter_bool. split; [done|].
      by apply negb_true_iff, bool_decide_eq_false.
    + rewrite !orb_true_iff, bool_decide_eq_true. tauto.
Qed.

Global Instance updated_desc_trans :
  Transitive (λ a b : Task, updated_at b ≤ updated_at a).
Proof. intros a b c. lia. Qed.

(** X25. The recent list of the dashboard holds the five most recently updated
    tasks, newest first, completed ones included: every task that is left
    out was updated no later than every task shown. *)
Theorem recent_tasks (ts : list Task) :
  let recent := recentTasks ts in
  length recent = Nat.min 5 (length ts)
  ∧ (∀ i j a b, recent !! i = Some a → recent !! j = Some b → (i < j)%nat →
       updated_at b ≤ updated_at a)
  ∧ ∃ rest,
      recent ++ rest ≡ₚ ts
      ∧ ∀ a b, a ∈ recent → b ∈ rest → updated_at b ≤ updated_at a.
Proof.
  intros recent. unfold recent, recentTasks.
  set (sorted := Array_sort (λ a b, updated_at b - updated_at a) ts).
  assert (StronglySorted (λ a b : Task, updated_at b ≤ updated_at a) sorted)
    as Hs.
  { apply Array_sort_sorted; [apply _|].
    apply ForallOrdPairs_all. intros a b. unfold decides. lia. }
  split; [|split].
  - rewrite length_take. unfold sorted. by rewrite Array_sort_length.
  - intros i j a b Hi Hj Hlt.
    apply lookup_take_Some in Hi as [Hi _].
    apply lookup_take_Some in Hj as [Hj _].
    apply (StronglySorted_lookup_lt _ _ _ _ _ _ Hs Hlt Hi Hj).
  - exists (drop 5 sorted). split.
    + rewrite take_drop. apply Array_sort_perm.
    + intros a b Ha Hb.
      rewrite <-(take_drop 5 sorted) in Hs.
      apply list_elem_of_lookup_1 in Ha as [i Hi].
      apply list_elem_of_lookup_1 in Hb as [j Hj].
      pose proof (lookup_lt_Some _ _ _ Hi) as Hlt.
      apply (StronglySorted_lookup_lt _ _ i (length (take 5 sorted) + j) a b
               Hs); [lia| |].
      * by rewrite lookup_app_l.
      * rewrite lookup_app_r by lia. by rewrite Nat.add_comm, Nat.add_sub.
Qed.

Section card.
Variable format : Z → string → string.

(** X26. The deadline badge of a task card says overdue exactly when the
    dashboard counts the task's deadline as overdue, and marks a deadline
    as urgent exactly when it is the current day or the next; it never does
    both.  A deadline of the next day is due soon on the dashboard as
    well. *)
Theorem card_deadline_flags (now : Z) (t : Task) :
  let info := TaskCard.formatDeadline format now (deadline t) in
  TaskCard.isOverdue info = is_overdue now t
  ∧ (TaskCard.isUrgent info = true
     ↔ deadline t = Some (now `div` MS_PER_DAY)
       ∨ deadline t = Some (now `div` MS_PER_DAY + 1))
  ∧ TaskCard.isOverdue info && TaskCard.isUrgent info = false
  ∧ (deadline t = Some (now `div` MS_PER_DAY + 1) → is_dueSoon now t = true).
Proof.
  intros info. unfold info, TaskCard.formatDeadline, is_overdue.
  destruct (deadline t) as [d|] eqn:Hd.
  - pose proof (isToday_iff now d) as Htoday.
    pose proof (isTomorrow_iff now d) as Htomorrow.
    destruct (isToday now (parseISO d)) eqn:Ht; simpl.
    + rewrite andb_false_r. split; [done|].
      split; [split; [intros _; left; f_equal; by apply Htoday|done]|].
      split; [done|].
      intros [= Heq]. exfalso.
      assert (d = now `div` MS_PER_DAY) by by apply Htoday. lia.
    + rewrite andb_true_r.
      destruct (TaskCard.isTomorrow now (parseISO d)) eqn:Htm; simpl.
      * assert (d = now `div` MS_PER_DAY + 1) as Hdd by by apply Htomorrow.
        split.
        { symmetry. apply bool_decide_eq_false. unfold parseISO.
          pose proof (Z.div_mod now MS_PER_DAY) as Hdm.
          pose proof (Z.mod_pos_bound now MS_PER_DAY) as Hb.
          unfold MS_PER_DAY in *. lia. }
        split; [split; [intros _; right; by f_equal|done]|].
        split; [done|].
        intros _. apply (is_dueSoon_iff now t d Hd). lia.
      * assert (d ≠ now `div` MS_PER_DAY)
          by (intros Heq; apply Htoday in Heq; congruence).
        assert (d ≠ now `div` MS_PER_DAY + 1)
          by (intros Heq; apply Htomorrow in Heq; congruence).
        destruct (isPast now (parseISO d)); simpl.
        -- split; [done|]. split; [split; [done|]|].
           ++ intros [[= ?]|[= ?]]; done.
           ++ split; [done|]. intros [= ?]; done.
        -- split; [done|]. split; [split; [done|]|].
           ++ intros [[= ?]|[= ?]]; done.
           ++ split; [done|]. intros [= ?]; done.
  - simpl. split; [done|]. split; [split; [done|by intros [?|?]]|].
    split; [done|]. done.
Qed.
End card.

End Dashboard_windows.

(** ** The filter bar, the URL and the request *)

Module FilterBar_facts.
Import Tasks Tasks_facts.

Lemma set_if_truthy_falsy name value params :
  truthy value = false → set_if_truthy name value params = params.
Proof.
  unfold set_if_truthy. destruct value as [v|]; [|done]. by intros ->.
Qed.

Lemma URLSearchParams_set_nonempty name value params :
  URLSearchParams_set name value params ≠ [].
Proof.
  destruct params as [|[k v] params]; simpl; [done|].
  by destruct (decide (k = name)).
Qed.

Lemma set_if_truthy_nonempty name value params :
  params ≠ [] → set_if_truthy name value params ≠ [].
Proof.
  intros Hne. unfold set_if_truthy. destruct value as [v|]; [|done].
  destruct (truthy (Some v)); [|done]. apply URLSearchParams_set_nonempty.
Qed.

Lemma set_if_truthy_truthy name value params :
  truthy value = true → set_if_truthy name value params ≠ [].
Proof.
  unfold set_if_truthy. destruct value as [v|]; [|done]. intros ->.
  apply URLSearchParams_set_nonempty.
Qed.

Lemma value_or_null_nonempty value : FilterBar.value_or_null value ≠ Some "".
Proof.
  unfold FilterBar.value_or_null. destruct (String.eqb_spec value ""); congruence.
Qed.

Lemma onFilterEvent_no_empty_field f e :
  no_empty_field f → no_empty_field (FilterBar.onFilterEvent f e).
Proof.
  intros (Hs & Ht & Ha & Hp).
  destruct e; simpl; unfold no_empty_field; simpl;
    repeat split; try done; apply value_or_null_nonempty.
Qed.

Lemma constraint_absent_as_null value p t :
  useTasks.constraint (absent_as_null value) p t = useTasks.constraint value p t.
Proof.
  unfold absent_as_null, useTasks.constraint, truthy.
  destruct value as [v|]; [|done].
  destruct (String.eqb v "") eqn:Hv; simpl; [done|]. by rewrite Hv.
Qed.

(** X27. The query string is empty exactly when the filter bar shows no
    active filter: a filter state writes no parameter at all if and only if
    every field is null or empty, as after Clear all. *)
Theorem empty_query_iff (f : FilterState) :
  (handleFilterChange f = [] ↔ FilterBar.hasActiveFilters f = false)
  ∧ (∀ f0, handleFilterChange (FilterBar.onFilterEvent f0 FilterBar.ClearFilters)
           = [])
  ∧ ∀ f0, FilterBar.hasActiveFilters
            (FilterBar.onFilterEvent f0 FilterBar.ClearFilters) = false.
Proof.
  split; [|done].
  unfold handleFilterChange, FilterBar.hasActiveFilters.
  rewrite !orb_false_iff. split.
  - intros Hnil.
    destruct (truthy (Some (search f))) eqn:Hq;
      [by apply (set_if_truthy_truthy "q") in Hnil|].
    rewrite (set_if_truthy_falsy "q") in Hnil by done.
    destruct (truthy (priority f)) eqn:Hp;
      [by apply (set_if_truthy_truthy "priority") in Hnil|].
    rewrite (set_if_truthy_falsy "priority") in Hnil by done.
    destruct (truthy (assignee f)) eqn:Ha;
      [by apply (set_if_truthy_truthy "assignee") in Hnil|].
    rewrite (set_if_truthy_falsy "assignee") in Hnil by done.
    destruct (truthy (topic f)) eqn:Ht;
      [by apply (set_if_truthy_truthy "topic") in Hnil|].
    rewrite (set_if_truthy_falsy "topic") in Hnil by done.
    destruct (truthy (status f)) eqn:Hs;
      [by apply (set_if_truthy_truthy "status") in Hnil|].
    done.
  - intros ((((Hs & Ht) & Ha) & Hp) & Hq).
    by rewrite !set_if_truthy_falsy.
Qed.

(** X28. After any sequence of actions in the filter bar, starting from a
    state without an empty nullable field, the URL holds the filter state
    exactly: reading the query string that was written last gives the
    current state back. *)
Theorem filter_events_round_trip (f : FilterState)
    (events : list FilterBar.FilterEvent) :
  no_empty_field f →
  let f' := fold_left FilterBar.onFilterEvent events f in
  no_empty_field f' ∧ readFilters (handleFilterChange f') = f'.
Proof.
  intros Hf f'.
  assert (no_empty_field f') as Hf'.
  { unfold f'. clear f'. revert f Hf.
    induction events as [|e events IH]; intros f Hf; [done|].
    simpl. by apply IH, onFilterEvent_no_empty_field. }
  split; [done|]. rewrite readFilters_handleFilterChange.
  destruct Hf' as (Hs & Ht & Ha & Hp). destruct f' as [st to asg pr se].
  simpl in *. by rewrite !absent_as_null_id.
Qed.

Lemma filter_events_round_trip_witness :
  let f := readFilters [("priority", "high")] in
  let events := [FilterBar.SelectStatus "pending"; FilterBar.TypeSearch "budget";
                 FilterBar.SelectStatus ""; FilterBar.RemovePriority] in
  readFilters (handleFilterChange (fold_left FilterBar.onFilterEvent events f))
  = mkFilterState None None None None "budget".
Proof.
  intros f events.
  apply (filter_events_round_trip f events).
  by repeat split.
Defined.

Section query.
Variable toLowerCase : string → string.

(** X29. The URL written for a filter state selects the same tasks when it is
    read back, whatever the state: the fields that are not written are the
    ones that do not filter. *)
Theorem url_same_selection (ts : list Types.Task) (f : FilterState) :
  useTasks.applyFilters toLowerCase ts (readFilters (handleFilterChange f))
  = useTasks.applyFilters toLowerCase ts f.
Proof.
  rewrite !useTasks_facts.applyFilters_matches, readFilters_handleFilterChange.
  apply List.filter_ext. intros t. unfold useTasks.matches; simpl.
  by rewrite !constraint_absent_as_null.
Qed.
End query.

Section request.
Variable Number_toString : Z → string.

Lemma get_set_if_nonzero_ne name name' value params :
  name ≠ name' →
  URLSearchParams_get name'
    (Api.set_if_nonzero Number_toString name value params)
  = URLSearchParams_get name' params.
Proof.
  intros Hne. unfold Api.set_if_nonzero.
  destruct value as [n|]; [|done]. destruct (n =? 0)%Z; [done|].
  by apply get_set_ne.
Qed.

Lemma get_set_eq name value params :
  URLSearchParams_get name (URLSearchParams_set name value params) = Some value.
Proof.
  unfold URLSearchParams_get.
  induction params as [|[k x] params IH]; simpl.
  - by rewrite decide_True.
  - destruct (decide (k = name)) as [->|Hne]; simpl.
    + by rewrite decide_True.
    + by rewrite decide_False.
Qed.

Lemma get_set_if_nonzero_eq name value params :
  URLSearchParams_get name params = None →
  URLSearchParams_get name
    (Api.set_if_nonzero Number_toString name value params)
  = match value with
    | Some n => if (n =? 0)%Z then None else Some (Number_toString n)
    | None => None
    end.
Proof.
  intros Hget. unfold Api.set_if_nonzero.
  destruct value as [n|]; [|done]. destruct (n =? 0)%Z; [done|].
  apply get_set_eq.
Qed.

Lemma handleFilterChange_get name f :
  name ∉ ["status"; "topic"; "assignee"; "priority"; "q"] →
  URLSearchParams_get name (handleFilterChange f) = None.
Proof.
  intros Hname. unfold handleFilterChange.
  rewrite !get_set_if_truthy_ne; [done|intros <-; apply Hname..].
  - do 0 apply list_elem_of_further. apply list_elem_of_here.
  - do 1 apply list_elem_of_further. apply list_elem_of_here.
  - do 2 apply list_elem_of_further. apply list_elem_of_here.
  - do 3 apply list_elem_of_further. apply list_elem_of_here.
  - do 4 apply list_elem_of_further. apply list_elem_of_here.
Qed.

(** X30. The request of [listTasks] carries the filter parameters that the
    page writes to its URL, so that the filter state read from the one is
    the state read from the other; a limit or an offset is sent only when
    it is given and not zero, and without pagination the two queries are
    the same. *)
Theorem listTasks_query (f : FilterState)
    (pagination : option useTasks.Pagination) :
  let params := Api.listTasks_params Number_toString f pagination in
  readFilters params = readFilters (handleFilterChange f)
  ∧ URLSearchParams_get "limit" params
    = match pagination ≫= useTasks.page_limit with
      | Some n => if (n =? 0)%Z then None else Some (Number_toString n)
      | None => None
      end
  ∧ URLSearchParams_get "offset" params
    = match pagination ≫= useTasks.page_offset with
      | Some n => if (n =? 0)%Z then None else Some (Number_toString n)
      | None => None
      end
  ∧ Api.listTasks_params Number_toString f None = handleFilterChange f.
Proof.
  intros params. unfold params, Api.listTasks_params.
  fold (handleFilterChange f). split; [|split; [|split]].
  - unfold readFilters. by rewrite !get_set_if_nonzero_ne.
  - rewrite get_set_if_nonzero_ne by done.
    apply get_set_if_nonzero_eq, handleFilterChange_get.
    intros Hin. repeat (apply elem_of_cons in Hin as [?|Hin]; [done|]).
    by apply elem_of_nil in Hin.
  - apply get_set_if_nonzero_eq. rewrite get_set_if_nonzero_ne by done.
    apply handleFilterChange_get.
    intros Hin. repeat (apply elem_of_cons in Hin as [?|Hin]; [done|]).
    by apply elem_of_nil in Hin.
  - done.
Qed.
End request.

End FilterBar_facts.

(** ** Paths and the keys of the tree nodes *)

(** Splitting cuts at every separator. *)
Lemma split_app_sep sep (a b : string) :
  split sep (a +:+ String sep b) = split sep a ++ split sep b.
Proof.
  induction a as [|c a IH]; simpl.
  - by rewrite Ascii.eqb_refl.
  - destruct (Ascii.eqb c sep); [by rewrite IH|].
    rewrite IH. destruct (split sep a) as [|seg segs] eqn:Ha; [|done].
    by apply split_nonempty in Ha.
Qed.

(** A segment of a split holds no separator: splitting it again gives the
    segment itself. *)
Lemma split_segments sep (s : string) :
  Forall (λ p, split sep p = [p]) (split sep s).
Proof.
  induction s as [|c s IH]; simpl; [by constructor|].
  destruct (Ascii.eqb c sep) eqn:Hc; [by constructor|].
  destruct (split sep s) as [|seg segs] eqn:Hs;
    [by apply split_nonempty in Hs|].
  apply Forall_cons in IH as [Hseg Hsegs]. constructor; [|done].
  simpl. by rewrite Hc, Hseg.
Qed.

Lemma split_join (parts : list string) :
  parts ≠ [] →
  Forall (λ p, split "/" p = [p]) parts →
  split "/" (join "/" parts) = parts.
Proof.
  unfold join. induction parts as [|x parts IH]; [done|]. intros _ Hall.
  apply Forall_cons in Hall as [Hx Hall].
  destruct parts as [|y parts]; [done|].
  change (String.concat "/" (x :: y :: parts))
    with (x +:+ String "/" (String.concat "/" (y :: parts))).
  by rewrite split_app_sep, Hx, IH.
Qed.

Module TopicTree_keys.
Import Types TopicTree TopicTree_nodes.

(** Where there is a node, the topic of some task passes. *)
Lemma node_has_task ts path n :
  path ≠ [] →
  node_at path (buildTopicTree_own ts) = Some n →
  ∃ t, t ∈ ts ∧ path `prefix_of` topic_path t.
Proof.
  intros Hpath Hn.
  pose proof (buildTopicTree_subtree_ok ts path Hpath) as H.
  rewrite Hn in H. destruct H as (Hc & Hpos & _). simpl in Hc.
  destruct (List.filter (passes_through path) ts) as [|t l] eqn:Hf;
    [simpl in Hc; lia|].
  assert (t ∈ List.filter (passes_through path) ts) as Hin
    by (rewrite Hf; apply list_elem_of_here).
  apply list_elem_of_In, List.filter_In in Hin as [Hin Hp].
  exists t. split; [by apply list_elem_of_In|].
  by apply bool_decide_eq_true in Hp.
Qed.

Lemma node_split_fullPath ts path n :
  path ≠ [] →
  node_at path (buildTopicTree_own ts) = Some n →
  split "/" (fullPath n) = path.
Proof.
  intros Hpath Hn.
  destruct (node_has_task ts path n Hpath Hn) as (t & _ & [k Hk]).
  pose proof (buildTopicTree_subtree_ok ts path Hpath) as H.
  rewrite Hn in H. destruct H as (_ & _ & _ & Hf & _). simpl in Hf.
  rewrite Hf. apply split_join; [done|].
  pose proof (split_segments "/" (primary_topic t)) as Hseg.
  unfold topic_path in Hk. rewrite Hk in Hseg.
  by apply Forall_app in Hseg as [? _].
Qed.

Lemma node_at_one k (root : TopicNode) : node_at [k] root = children root !! k.
Proof. simpl. by destruct (children root !! k). Qed.

(** X5. In the tree that the builder returns, the [fullPath] of a node,
    which the tree uses as the key of the node and as the topic to select,
    splits back into the path of the node; so two nodes at different paths
    never have the same [fullPath]. *)
Theorem fullPath_round_trip (ts : list Task) (tree : TopicNode)
    (path : list string) (n : TopicNode) :
  buildTopicTree ts = Some tree →
  path ≠ [] →
  node_at path tree = Some n →
  split "/" (fullPath n) = path
  ∧ ∀ path' n', path' ≠ [] →
      node_at path' tree = Some n' →
      fullPath n' = fullPath n → path' = path.
Proof.
  intros ->%TopicTree_facts.buildTopicTree_own_eq Hpath Hn.
  split; [by eapply node_split_fullPath|].
  intros path' n' Hpath' Hn' Heq.
  rewrite <-(node_split_fullPath ts path' n' Hpath' Hn'),
    <-(node_split_fullPath ts path n Hpath Hn). by rewrite Heq.
Qed.

Lemma fullPath_round_trip_witness :
  let ts := [sample_task "1" None None high "Work" pending;
             sample_task "2" None None low "Work/Beta" completed] in
  ∃ tree n,
    buildTopicTree ts = Some tree
    ∧ node_at ["Work"; "Beta"] tree = Some n
    ∧ split "/" (fullPath n) = ["Work"; "Beta"].
Proof.
  intros ts.
  eassert (buildTopicTree ts = Some _) as Htree by (vm_compute; reflexivity).
  eassert (buildTopicTree ts ≫= node_at ["Work"; "Beta"] = Some _) as Hn
    by (vm_compute; reflexivity).
  rewrite Htree in Hn. simpl in Hn.
  eexists _, _. split; [exact Htree|]. split; [exact Hn|].
  apply (fullPath_round_trip ts _ ["Work"; "Beta"] _ Htree
           ltac:(discriminate) Hn).
Defined.

(** X6. The top-level topics of the tree that the builder returns are the
    first segments of the topics of the tasks, each once: the header counts
    the distinct first segments, and there is none exactly when there is no
    task. *)
Theorem top_level_topics (ts : list Task) (tree : TopicNode) :
  buildTopicTree ts = Some tree →
  dom (children tree)
  = list_to_set (omap (λ t, head (topic_path t)) ts)
  ∧ size (children tree)
    = size (list_to_set (C := gset string)
              (omap (λ t, head (topic_path t)) ts))
  ∧ (children tree = ∅ ↔ ts = []).
Proof.
  intros ->%TopicTree_facts.buildTopicTree_own_eq.
  set (tree := buildTopicTree_own ts).
  assert (dom (children tree)
          = list_to_set (omap (λ t, head (topic_path t)) ts)) as Hdom.
  { apply set_eq. intros k.
    rewrite elem_of_dom, elem_of_list_to_set, list_elem_of_omap.
    rewrite <-node_at_one. split.
    - intros [n Hn].
      destruct (node_has_task ts [k] n) as (t & Hin & [l Hl]); [done..|].
      exists t. split; [done|]. by rewrite Hl.
    - intros (t & Hin & Hhead).
      pose proof (buildTopicTree_subtree_ok ts [k]) as H.
      fold tree in H. change ([] ++ [k]) with [k] in H.
      destruct (node_at [k] tree) as [n|]; [done|].
      assert (t ∈ List.filter (passes_through [k]) ts) as Hin'.
      { apply list_elem_of_In, List.filter_In.
        split; [by apply list_elem_of_In|].
        apply bool_decide_eq_true. unfold topic_path in *.
        destruct (split "/" (primary_topic t)) as [|p l]; [done|].
        injection Hhead as ->. by exists l. }
      rewrite H in Hin' by done. by apply elem_of_nil in Hin'. }
  split; [done|]. split.
  - by rewrite <-Hdom, size_dom.
  - rewrite <-dom_empty_iff_L, Hdom. split.
    + intros Hempty. destruct ts as [|t ts']; [done|]. exfalso.
      pose proof (split_nonempty "/" (primary_topic t)) as Hne.
      destruct (split "/" (primary_topic t)) as [|p l] eqn:Hp; [done|].
      assert (p ∈ (list_to_set (omap (λ t, head (topic_path t)) (t :: ts'))
                   : gset string)) as Hin.
      { apply elem_of_list_to_set, list_elem_of_omap. exists t.
        split; [apply list_elem_of_here|]. unfold topic_path. by rewrite Hp. }
      rewrite Hempty in Hin. by apply elem_of_empty in Hin.
    + by intros ->.
Qed.

Lemma top_level_topics_witness :
  let ts := [sample_task "1" None None high "Work/Alpha" pending;
             sample_task "2" None None low "Home" completed;
             sample_task "3" None None low "Work/Beta" pending] in
  ∃ tree,
    buildTopicTree ts = Some tree
    ∧ size (children tree)
      = size (list_to_set (C := gset string)
                (omap (λ t, head (topic_path t)) ts)).
Proof.
  intros ts.
  eassert (buildTopicTree ts = Some _) as Htree by (vm_compute; reflexivity).
  eexists. split; [exact Htree|].
  apply (top_level_topics ts _ Htree).
Defined.

End TopicTree_keys.
